(** * coreline: hexagonal grid geometry, enumeration and selection

    A shallow embedding of the two implementations of the repository:

    - [Radial]  : [src/unnamed/part_000], the pointy-top variant with the
      forgiving [Hex] constructor, [hex_to_pixel], [hex_round],
      [pixel_to_hex], the radius-bounded grid of [updateGridDisplay] and the
      click handler [onHexClick];
    - [Script]  : [src/script.js], the variant with the strict [Hex]
      constructor, [toPixel], the rectangle-bounded [generateGrid] and the
      [GameRenderer] selection bookkeeping.

    JavaScript numbers are modelled as real numbers with exact arithmetic;
    [undefined] is [None] in an [option R].  Integer loop counters are [Z]
    and enter real arithmetic through [IZR]. *)

From Stdlib Require Import Reals Lra Lia ZArith List Ascii.
From stdpp Require Import base decidable option list strings pretty gmap.

(** ** JavaScript [Math] on real numbers *)

#[global] Instance R_eq_decision : EqDecision R := Req_dec_T.
#[global] Instance Rlt_decision : RelDecision Rlt := Rlt_dec.
#[global] Instance Rgt_decision : RelDecision Rgt := Rgt_dec.
#[global] Instance Rle_decision : RelDecision Rle := Rle_dec.
#[global] Instance Rge_decision : RelDecision Rge := Rge_dec.

(** [Math.floor] *)
Definition Math_floor (x : R) : Z := Int_part x.

(** [Math.ceil] *)
Definition Math_ceil (x : R) : Z := (- Int_part (- x))%Z.

(** [Math.round]: the nearest integer, a tie going to the larger one. *)
Definition Math_round (x : R) : Z := Int_part (x + / 2).

(** [Math.abs] *)
Definition Math_abs (x : R) : R := Rabs x.

(** [Math.sqrt(3)] *)
Definition SQRT3 : R := sqrt 3.

(** The integers [lo, lo+1, ..., hi] in increasing order: the values a loop
    [for (let i = lo; i <= hi; i++)] runs through. *)
Definition Zrange (lo hi : Z) : list Z := seqZ lo (hi - lo + 1).

Module Radial.

Local Open Scope R_scope.

(** *** [class Hex] *)

Record Hex : Type := mkHex { q : R; r : R; s : R }.

#[global] Instance Hex_eq_decision : EqDecision Hex.
Proof. solve_decision. Defined.

(** [new Hex(q, r, s)] on JavaScript values.  The sum of the arguments is
    [NaN] as soon as one of them is [undefined], and [Math.round(NaN) !== 0]
    holds, so the correction runs; its four branches are the four last lines
    below.  With three numbers the correction runs when the rounded sum is
    not zero, and takes the first branch ([q] and [r] are given). *)
Definition Hex_constructor (q r s : option R) : Hex :=
  match q, r, s with
  | Some q', Some r', Some s' =>
      if decide (Math_round (q' + r' + s') <> 0%Z)
      then mkHex q' r' (- q' - r')
      else mkHex q' r' s'
  | Some q', Some r', None => mkHex q' r' (- q' - r')
  | Some q', None, Some s' => mkHex q' (- q' - s') s'
  | None, Some r', Some s' => mkHex (- r' - s') r' s'
  | _, _, _ => mkHex 0 0 0
  end.

(** [new Hex(q, r, s)] called with three numbers. *)
Definition new_Hex (q r s : R) : Hex := Hex_constructor (Some q) (Some r) (Some s).

(** [Hex.add] *)
Definition add (hexA hexB : Hex) : Hex :=
  new_Hex (q hexA + q hexB) (r hexA + r hexB) (s hexA + s hexB).

(** [Hex.equals] *)
Definition equals (hexA hexB : Hex) : bool :=
  bool_decide (q hexA = q hexB) && bool_decide (r hexA = r hexB)
  && bool_decide (s hexA = s hexB).

(** [hex.axial()] *)
Definition axial (hex : Hex) : R * R := (q hex, r hex).

(** *** Layout *)

Record Point : Type := mkPoint { x : R; y : R }.

Record Orientation : Type := mkOrientation {
  start_angle : R;
  f0 : Point; f1 : Point; f2 : Point; f3 : Point; f4 : Point; f5 : Point
}.

(** [layout.hex_size], an object [{ q, r }] in the source. *)
Record HexSize : Type := mkHexSize { size_q : R; size_r : R }.

Record Layout : Type := mkLayout {
  orientation : Orientation;
  hex_size : HexSize;
  origin : Point
}.

(** [HEX_CONSTANTS.layout.orientation] *)
Definition HEX_CONSTANTS_orientation : Orientation :=
  {| start_angle := 0.5;
     f0 := mkPoint SQRT3 (SQRT3 / 2);     f1 := mkPoint (SQRT3 / 2) (SQRT3 / 2);
     f2 := mkPoint 0 SQRT3;               f3 := mkPoint (- SQRT3 / 2) (SQRT3 / 2);
     f4 := mkPoint (- SQRT3) 0;           f5 := mkPoint (- SQRT3 / 2) (- SQRT3 / 2) |}.

(** The layout [drawHex] and [onHexClick] build from the globals
    [currentHexSize] and [currentScreenCenter]. *)
Definition current_layout (currentHexSize : R) (currentScreenCenter : Point) : Layout :=
  {| orientation := HEX_CONSTANTS_orientation;
     hex_size := mkHexSize currentHexSize currentHexSize;
     origin := currentScreenCenter |}.

(** *** Conversions *)

Definition hex_to_pixel (hex : Hex) (layout : Layout) : Point :=
  let M := orientation layout in
  let size := hex_size layout in
  let origin := origin layout in
  let pixelX := size_q size * (x (f0 M) * q hex + x (f1 M) * r hex) + x origin in
  let pixelY := size_r size * (y (f2 M) * q hex + y (f3 M) * r hex) + y origin in
  mkPoint pixelX pixelY.

Definition hex_round (hex : Hex) : Hex :=
  let rx := IZR (Math_round (q hex)) in
  let ry := IZR (Math_round (r hex)) in
  let rz := IZR (Math_round (s hex)) in
  let x_diff := Math_abs (rx - q hex) in
  let y_diff := Math_abs (ry - r hex) in
  let z_diff := Math_abs (rz - s hex) in
  if decide (x_diff > y_diff /\ x_diff > z_diff) then
    new_Hex (- ry - rz) ry rz
  else if decide (y_diff > z_diff) then
    new_Hex rx (- rx - rz) rz
  else
    new_Hex rx ry (- rx - ry).

Definition pixel_to_hex (point : Point) (layout : Layout) : Hex :=
  let M := orientation layout in
  let size := hex_size layout in
  let origin := origin layout in
  let pt := mkPoint ((x point - x origin) / size_q size)
                    ((y point - y origin) / size_r size) in
  let q' := x (f0 M) * x pt + x (f1 M) * y pt in
  let r' := y (f2 M) * x pt + y (f3 M) * y pt in
  hex_round (new_Hex q' r' (- q' - r')).

(** *** The radius-bounded grid *)

(** The two nested loops of [updateGridDisplay]: the [Hex] values pushed onto
    [gameHexes], in the order they are pushed. *)
Definition grid_loop (currentMaxRadius : Z) : list Hex :=
  q' ← Zrange (- currentMaxRadius) currentMaxRadius;
  r' ← Zrange (Z.max (- currentMaxRadius) (- q' - currentMaxRadius))
              (Z.min currentMaxRadius (- q' + currentMaxRadius));
  let s' := (- q' - r')%Z in
  [new_Hex (IZR q') (IZR r') (IZR s')].

(** What [drawHex] last drew on a graphics object: the default options or
    the highlight options of [onHexClick]. *)
Inductive Style : Type := Default_style | Highlight_style.

(** The module-level variables.  A [Hex] object is a pair of its allocation
    number and its fields, so that [hexGraphicsMap], a [Map] keyed by the
    object itself, is a map on allocation numbers; the graphics object made
    for a [Hex] object is named by the same number and carries the style it
    was last drawn with.  [currentMaxRadius] is [None] when it is [NaN]. *)
Record State : Type := mkState {
  gameHexes : list (nat * Hex);
  hexGraphicsMap : gmap nat Style;
  currentHexSize : R;
  currentScreenCenter : Point;
  currentMaxRadius : option Z;
  selectedHex : option (nat * Hex);
  selectedHexGraphics : option nat;
  next_object : nat
}.

Definition targetMaxRadius : R := 5.

(** [updateGridDisplay()], with [window.innerWidth] and [window.innerHeight]
    as arguments.  [selectedHex] and [selectedHexGraphics] are not assigned.

    The computed size is 0 exactly when a dimension of the window is 0; the
    quotients by it are then [Infinity] or [NaN], one at least is [NaN], and
    so are their minimum, its floor and [currentMaxRadius]: both loop
    conditions are false and no hex is pushed. *)
Definition updateGridDisplay (screenWidth screenHeight : R) (st : State) : State :=
  let center := mkPoint (screenWidth / 2) (screenHeight / 2) in
  let requiredSizeForWidth :=
    if decide (targetMaxRadius > 0)
    then (screenWidth / (2 * targetMaxRadius + 1)) / SQRT3
    else screenWidth / 2 in
  let requiredSizeForHeight :=
    if decide (targetMaxRadius > 0)
    then (screenHeight / (2 * targetMaxRadius + 1)) / 2
    else screenHeight / 2 in
  let size := Rmin requiredSizeForWidth requiredSizeForHeight * 0.9 in
  let R_from_height := (screenHeight / size / 2 - 1) / 2 in
  let R_from_width := (screenWidth / size / SQRT3 - 1) / 2 in
  let radius :=
    if decide (size = 0) then None
    else Some (Z.max 0 (Math_floor (Rmin R_from_height R_from_width))) in
  let hexes :=
    match radius with
    | Some radius' => grid_loop radius'
    | None => []
    end in
  let objects := zip (seq (next_object st) (length hexes)) hexes in
  {| gameHexes := objects;
     hexGraphicsMap := list_to_map ((fun o : nat * Hex => (o.1, Default_style)) <$> objects);
     currentHexSize := size;
     currentScreenCenter := center;
     currentMaxRadius := radius;
     selectedHex := selectedHex st;
     selectedHexGraphics := selectedHexGraphics st;
     next_object := (next_object st + length hexes)%nat |}.

(** The search loop of [onHexClick]: the first object of [gameHexes] whose
    fields equal those of [clickedHex]. *)
Definition find_hex (clickedHex : Hex) (hexes : list (nat * Hex)) : option (nat * Hex) :=
  find (fun hex : nat * Hex => equals hex.2 clickedHex) hexes.

(** [onHexClick(event)], with the click point [event.data.global] as
    argument. *)
Definition onHexClick (clickPoint : Point) (st : State) : State :=
  let clickedHex :=
    pixel_to_hex clickPoint
      (current_layout (currentHexSize st) (currentScreenCenter st)) in
  let foundHex := find_hex clickedHex (gameHexes st) in
  (* Remove highlight from previously selected hex *)
  let st1 :=
    match selectedHexGraphics st with
    | Some _ =>
        let redrawn :=
          match selectedHex st with
          | Some hex =>
              match hexGraphicsMap st !! hex.1 with
              | Some _ => <[hex.1 := Default_style]> (hexGraphicsMap st)
              | None => hexGraphicsMap st
              end
          | None => hexGraphicsMap st
          end in
        {| gameHexes := gameHexes st;
           hexGraphicsMap := redrawn;
           currentHexSize := currentHexSize st;
           currentScreenCenter := currentScreenCenter st;
           currentMaxRadius := currentMaxRadius st;
           selectedHex := None;
           selectedHexGraphics := None;
           next_object := next_object st |}
    | None => st
    end in
  (* Apply highlight to the newly clicked hex if it's valid *)
  match foundHex with
  | Some hex =>
      match hexGraphicsMap st1 !! hex.1 with
      | Some _ =>
          {| gameHexes := gameHexes st1;
             hexGraphicsMap := <[hex.1 := Highlight_style]> (hexGraphicsMap st1);
             currentHexSize := currentHexSize st1;
             currentScreenCenter := currentScreenCenter st1;
             currentMaxRadius := currentMaxRadius st1;
             selectedHex := Some hex;
             selectedHexGraphics := Some hex.1;
             next_object := next_object st1 |}
      | None => st1
      end
  | None => st1
  end.

(** The variables as the script leaves them before [init()] runs; the size
    and the centre are assigned by the first [updateGridDisplay] before they
    are read. *)
Definition initial_state : State :=
  {| gameHexes := [];
     hexGraphicsMap := ∅;
     currentHexSize := 0;
     currentScreenCenter := mkPoint 0 0;
     currentMaxRadius := None;
     selectedHex := None;
     selectedHexGraphics := None;
     next_object := 0%nat |}.

(** The states the page goes through: [init()] builds the first grid, then
    every event is a resize or a click. *)
Inductive reachable : State -> Prop :=
| reachable_init (innerWidth innerHeight : R) :
    reachable (updateGridDisplay innerWidth innerHeight initial_state)
| reachable_resize (innerWidth innerHeight : R) (st : State) :
    reachable st -> reachable (updateGridDisplay innerWidth innerHeight st)
| reachable_click (clickPoint : Point) (st : State) :
    reachable st -> reachable (onHexClick clickPoint st).

End Radial.

Module Script.

(** *** Exceptions *)

(** The outcome of code that may [throw new Error(msg)]. *)
Inductive result (A : Type) : Type :=
| Ok (a : A)
| Throw (msg : string).
Arguments Ok {A} a.
Arguments Throw {A} msg.

#[global] Instance result_bind : MBind result := fun A B k m =>
  match m with
  | Ok a => k a
  | Throw msg => Throw msg
  end.

(** A [for] loop over the values [l] that threads the loop state and stops
    at the first exception. *)
Fixpoint for_each {A S : Type} (l : list A) (body : A -> S -> result S) (st : S)
  : result S :=
  match l with
  | [] => Ok st
  | a :: l' => st' ← body a st; for_each l' body st'
  end.

(** *** Configuration *)

(** [HEX_ORIENTATION]: the code compares with ['flat-top'] and takes every
    other value as pointy-top. *)
Inductive Orientation : Type := flat_top | pointy_top.

Definition HEX_SIZE : R := 50.
Definition HEX_ORIENTATION : Orientation := flat_top.

(** *** [class Hex] *)

(** The coordinates are the integers the loops of [generateGrid] count
    with.  The field [id] is assigned once, in the constructor, from the
    three coordinates, and no field is assigned again: it is the function
    [id] below. *)
Record Hex : Type := mkHex { q : Z; r : Z; s : Z }.

#[global] Instance strict_Hex_eq_decision : EqDecision Hex.
Proof. solve_decision. Defined.

(** [`${q},${r},${s}`] *)
Definition Hex_id (q r s : Z) : string :=
  pretty q +:+ "," +:+ pretty r +:+ "," +:+ pretty s.

Definition id (hex : Hex) : string := Hex_id (q hex) (r hex) (s hex).

Definition sum_error_message (q r s : Z) : string :=
  "Hex coordinates must sum to 0: q(" +:+ pretty q +:+ ") + r(" +:+ pretty r
  +:+ ") + s(" +:+ pretty s +:+ ") = " +:+ pretty (q + r + s)%Z.

(** [new Hex(q, r, s)] *)
Definition Hex_constructor (q r s : Z) : result Hex :=
  if decide ((q + r + s)%Z <> 0%Z) then Throw (sum_error_message q r s)
  else Ok (mkHex q r s).

Record Point : Type := mkPoint { x : R; y : R }.

Local Open Scope R_scope.

(** [hex.toPixel(orientation, size, origin)] *)
Definition toPixel (hex : Hex) (orientation : Orientation) (size : R) (origin : Point)
  : Point :=
  let '(x', y') :=
    match orientation with
    | flat_top =>
        (size * (3 / 2 * IZR (q hex)),
         size * (sqrt 3 / 2 * IZR (q hex) + sqrt 3 * IZR (r hex)))
    | pointy_top =>
        (size * (sqrt 3 * IZR (q hex) + sqrt 3 / 2 * IZR (r hex)),
         size * (3 / 2 * IZR (r hex)))
    end in
  mkPoint (x' + x origin) (y' + y origin).

(** [hex.toAxial()] *)
Definition toAxial (hex : Hex) : Z * Z := (q hex, r hex).


(** *** [class HexGrid] *)

(** [hexes] is a [Map] from [id] to [Hex]; only its lookups are modelled,
    not its insertion order. *)
Record HexGrid : Type := mkHexGrid {
  hexSize : R;
  hexOrientation : Orientation;
  hexes : gmap string Hex;
  gridCenter : Point
}.

(** [new HexGrid(hexSize, hexOrientation)] *)
Definition HexGrid_constructor (hexSize : R) (hexOrientation : Orientation) : HexGrid :=
  {| hexSize := hexSize; hexOrientation := hexOrientation;
     hexes := ∅; gridCenter := mkPoint 0 0 |}.

(** The test guarding [this.hexes.set(hex.id, hex)]. *)
Definition within_bounds (pixel : Point) (hexSize width height : R) : Prop :=
  x pixel > - hexSize * 2 /\ x pixel < width + hexSize * 2 /\
  y pixel > - hexSize * 2 /\ y pixel < height + hexSize * 2.

#[global] Instance within_bounds_decision pixel hexSize width height :
  Decision (within_bounds pixel hexSize width height).
Proof. unfold within_bounds. apply _. Defined.

(** The body of the inner loop, the same in both branches of
    [generateGrid]. *)
Definition sweep_body (hexSize : R) (hexOrientation : Orientation) (gridCenter : Point)
    (width height : R) (q' r' : Z) (hexes : gmap string Hex)
  : result (gmap string Hex) :=
  let s' := (- q' - r')%Z in
  hex ← Hex_constructor q' r' s';
  let pixel := toPixel hex hexOrientation hexSize gridCenter in
  if decide (within_bounds pixel hexSize width height)
  then Ok (<[id hex := hex]> hexes)
  else Ok hexes.

(** The two nested loops, the same in both branches of [generateGrid]. *)
Definition sweep (hexSize : R) (hexOrientation : Orientation) (gridCenter : Point)
    (width height : R) (qMin qMax rMin rMax : Z) (hexes : gmap string Hex)
  : result (gmap string Hex) :=
  for_each (Zrange qMin qMax)
    (fun q' hexes =>
       for_each (Zrange rMin rMax)
         (sweep_body hexSize hexOrientation gridCenter width height q')
         hexes)
    hexes.

(** The axial bounds [(qMax, rMax)] of the sweep. *)
Definition sweep_bounds (hexSize : R) (hexOrientation : Orientation) (width height : R)
  : Z * Z :=
  match hexOrientation with
  | flat_top =>
      let hexHeight := hexSize * sqrt 3 in
      ((Math_ceil (width / (hexSize * 1.5)) + 1)%Z,
       (Math_ceil (height / hexHeight) + 1)%Z)
  | pointy_top =>
      let hexWidth := hexSize * sqrt 3 in
      ((Math_ceil (width / hexWidth) + 1)%Z,
       (Math_ceil (height / (hexSize * 1.5)) + 1)%Z)
  end.

(** [grid.generateGrid(width, height)] *)
Definition generateGrid (width height : R) (grid : HexGrid) : result HexGrid :=
  let '(qMax, rMax) := sweep_bounds (hexSize grid) (hexOrientation grid) width height in
  let qMin := (- qMax)%Z in
  let rMin := (- rMax)%Z in
  let gridCenter := mkPoint (width / 2) (height / 2) in
  hexes' ← sweep (hexSize grid) (hexOrientation grid) gridCenter width height
                  qMin qMax rMin rMax ∅;
  Ok {| hexSize := hexSize grid; hexOrientation := hexOrientation grid;
        hexes := hexes'; gridCenter := gridCenter |}.

(** *** [class GameRenderer] *)

(** [highlightGraphic] is the graphics object of the highlight, named by the
    hex it was drawn for; the children of [hexGraphicsContainer] are left to
    the renderer. *)
Record GameRenderer : Type := mkGameRenderer {
  hexGrid : HexGrid;
  highlightGraphic : option Hex;
  selectedHexId : option string
}.

(** [drawHighlight(hex)] *)
Definition drawHighlight (hex : Hex) (this : GameRenderer) : GameRenderer :=
  {| hexGrid := hexGrid this;
     highlightGraphic := Some hex;
     selectedHexId := Some (id hex) |}.

(** The truth value of [this.selectedHexId]: [null] and the empty string
    are falsy. *)
Definition truthy (v : option string) : option string :=
  match v with
  | Some i => if decide (i = "") then None else Some i
  | None => None
  end.

(** [drawGrid()] *)
Definition drawGrid (this : GameRenderer) : GameRenderer :=
  let this1 := {| hexGrid := hexGrid this;
                  highlightGraphic := None;
                  selectedHexId := selectedHexId this |} in
  match truthy (selectedHexId this1) with
  | Some i =>
      match hexes (hexGrid this1) !! i with
      | Some selectedHex => drawHighlight selectedHex this1
      | None => {| hexGrid := hexGrid this1;
                   highlightGraphic := highlightGraphic this1;
                   selectedHexId := None |}
      end
  | None => this1
  end.

(** [new GameRenderer(app, hexGrid)] *)
Definition GameRenderer_constructor (hexGrid : HexGrid) : GameRenderer :=
  drawGrid {| hexGrid := hexGrid; highlightGraphic := None; selectedHexId := None |}.

(** [onHexClick(event)], with [event.currentTarget.hex] as argument. *)
Definition onHexClick (hex : option Hex) (this : GameRenderer) : GameRenderer :=
  match hex with
  | Some hex' => drawHighlight hex' this
  | None => this
  end.

(** [resize()], with [window.innerWidth] and [window.innerHeight] as
    arguments.  [generateGrid] updates the grid object the renderer holds. *)
Definition resize (innerWidth innerHeight : R) (this : GameRenderer) : result GameRenderer :=
  grid' ← generateGrid innerWidth innerHeight (hexGrid this);
  Ok (drawGrid {| hexGrid := grid';
                  highlightGraphic := highlightGraphic this;
                  selectedHexId := selectedHexId this |}).

End Script.

(** ** Cube rounding as the specification words it *)

Module RoundingRules.

Import Radial.
Local Open Scope R_scope.

(** The three rounding errors of a fractional cube triple. *)
Definition error_q (h : Hex) : R := Rabs (IZR (Math_round (q h)) - q h).
Definition error_r (h : Hex) : R := Rabs (IZR (Math_round (r h)) - r h).
Definition error_s (h : Hex) : R := Rabs (IZR (Math_round (s h)) - s h).

(** The rule in the words of the specification: the axis whose error is
    the largest is recomputed, and the axes are asked in the order q, r, s,
    so that the earlier axis wins when the largest error is shared. *)
Definition round_earliest_largest (h : Hex) : Hex :=
  let rq := IZR (Math_round (q h)) in
  let rr := IZR (Math_round (r h)) in
  let rs := IZR (Math_round (s h)) in
  if decide (error_q h >= error_r h /\ error_q h >= error_s h) then
    mkHex (- rr - rs) rr rs
  else if decide (error_r h >= error_q h /\ error_r h >= error_s h) then
    mkHex rq (- rq - rs) rs
  else
    mkHex rq rr (- rq - rr).

(** The same rule with the later axis winning a shared largest error: s
    before r before q. *)
Definition round_latest_largest (h : Hex) : Hex :=
  let rq := IZR (Math_round (q h)) in
  let rr := IZR (Math_round (r h)) in
  let rs := IZR (Math_round (s h)) in
  if decide (error_s h >= error_q h /\ error_s h >= error_r h) then
    mkHex rq rr (- rq - rr)
  else if decide (error_r h >= error_q h) then
    mkHex rq (- rq - rs) rs
  else
    mkHex (- rr - rs) rr rs.

(** No two of the three errors are equal. *)
Definition errors_distinct (h : Hex) : Prop :=
  error_q h <> error_r h /\ error_q h <> error_s h /\ error_r h <> error_s h.

(** The invariant of cube coordinates, and integrality of the components. *)
Definition zero_sum (h : Hex) : Prop := q h + r h + s h = 0.

Definition integral (h : Hex) : Prop :=
  exists a b c : Z, h = mkHex (IZR a) (IZR b) (IZR c).

End RoundingRules.

(** ** The hexagonal disk *)

Module RadialNotions.

Import Radial.
Local Open Scope Z_scope.

(** The coordinate a pass of the inner loop of [updateGridDisplay] pushes. *)
Definition cell (a b : Z) : Hex := mkHex (IZR a) (IZR b) (IZR (- a - b)).

(** The bounds of the inner loop. *)
Definition row_lo (R a : Z) : Z := Z.max (- R) (- a - R).
Definition row_hi (R a : Z) : Z := Z.min R (- a + R).

(** Sum of an integer function over a list. *)
Definition Zsum (f : Z -> Z) (l : list Z) : Z := foldr (fun a acc => f a + acc) 0 l.

(** The cell size [updateGridDisplay] computes. *)
Definition fitted_size (screenWidth screenHeight : R) : R :=
  (Rmin (screenWidth / 11 / SQRT3) (screenHeight / 11 / 2) * 0.9)%R.

(** The hex [onHexClick] converts the click point to. *)
Definition clicked_hex (clickPoint : Point) (st : State) : Hex :=
  pixel_to_hex clickPoint (current_layout (currentHexSize st) (currentScreenCenter st)).

(** [selectedHex] and [selectedHexGraphics] are null together. *)
Definition selection_paired (st : State) : Prop :=
  selectedHex st = None <-> selectedHexGraphics st = None.

(** A session: the page opens in a window of 800 by 600, and the user
    clicks the centre of the window. *)
Definition session_grid : State := updateGridDisplay 800 600 initial_state.

Definition session_selected : State :=
  onHexClick (mkPoint 400 300) session_grid.

(** The graphics object numbered [k] was last drawn with the highlight
    options. *)
Definition highlighted (st : State) (k : nat) : Prop :=
  hexGraphicsMap st !! k = Some Highlight_style.

(** The q and r of a hex differ by at most 1. *)
Definition near_diagonal (h : Hex) : Prop :=
  (q h - r h = - 1 \/ q h - r h = 0 \/ q h - r h = 1)%R.

(** What every rebuild and every click keep: the selected object and the
    selected graphics go together, only the selected graphics is
    highlighted, and every object of the grid has its graphics. *)
Definition display_consistent (st : State) : Prop :=
  match selectedHex st, selectedHexGraphics st with
  | None, None => True
  | Some o, Some g => o.1 = g
  | _, _ => False
  end /\
  (forall k : nat, highlighted st k -> selectedHexGraphics st = Some k) /\
  (forall o : nat * Hex, o ∈ gameHexes st -> is_Some (hexGraphicsMap st !! o.1)).

End RadialNotions.

(** ** Notions for the strict variant *)

Module ScriptNotions.

Import Script.

(** A string without a comma: what the decimal form of an integer is. *)
Fixpoint comma_free (s : string) : Prop :=
  match s with
  | EmptyString => True
  | String c s' => c <> ","%char /\ comma_free s'
  end.

(** Every key of the map names the hex stored under it. *)
Definition keyed (hexes : gmap string Hex) : Prop :=
  forall (k : string) (h : Hex), hexes !! k = Some h -> k = id h.

(** The candidate the sweep builds for the loop counters [a] and [b]. *)
Definition candidate (a b : Z) : Hex := mkHex a b (- a - b).

(** The candidate passes the test of the sweep. *)
Definition kept (hexSize : R) (hexOrientation : Orientation) (gridCenter : Point)
    (width height : R) (h : Hex) : Prop :=
  within_bounds (toPixel h hexOrientation hexSize gridCenter) hexSize width height.

(** The renderer states the page goes through: [window.onload] generates
    the grid for the first window with the configured size and orientation
    and constructs the renderer, then every event is a click on a graphics
    object or a resize. *)
Inductive reachable : GameRenderer -> Prop :=
| renderer_new (width height : R) (grid : HexGrid) :
    generateGrid width height (HexGrid_constructor HEX_SIZE HEX_ORIENTATION) = Ok grid ->
    reachable (GameRenderer_constructor grid)
| renderer_click (hex : option Hex) (this : GameRenderer) :
    reachable this -> reachable (onHexClick hex this)
| renderer_resize (innerWidth innerHeight : R) (this this' : GameRenderer) :
    reachable this -> resize innerWidth innerHeight this = Ok this' ->
    reachable this'.

(** The selection, when there is one, is the identifier of a hex. *)
Definition selection_named (this : GameRenderer) : Prop :=
  selectedHexId this = None \/ exists C : Hex, selectedHexId this = Some (id C).

(** A session: the page opens in a window of 800 by 600, and the user
    clicks the graphics of the hex (6, -3, -3). *)
Definition window_grid : HexGrid :=
  match generateGrid 800 600 (HexGrid_constructor HEX_SIZE HEX_ORIENTATION) with
  | Ok grid => grid
  | Throw _ => HexGrid_constructor HEX_SIZE HEX_ORIENTATION
  end.

Definition window_selected : GameRenderer :=
  onHexClick (Some (mkHex 6 (- 3) (- 3))) (GameRenderer_constructor window_grid).

(** The highlight drawn is that of the selected hex. *)
Definition highlight_matches (this : GameRenderer) : Prop :=
  (highlightGraphic this = None /\ selectedHexId this = None) \/
  exists h : Hex, highlightGraphic this = Some h /\ selectedHexId this = Some (id h).

(** A candidate in a wide window: 1920 by 400, flat-top, cell size 50. *)
Definition wide_grid : HexGrid := HexGrid_constructor 50 flat_top.

End ScriptNotions.

(** ** Facts about [Math] on real numbers *)

Section MathFacts.

Local Open Scope R_scope.

Lemma Math_round_spec (x : R) (z : Z) :
  IZR z - / 2 <= x < IZR z + / 2 -> Math_round x = z.
Proof.
  intros [Hlo Hhi]. unfold Math_round. symmetry.
  apply Int_part_spec. split; lra.
Qed.

Lemma Math_round_IZR (z : Z) : Math_round (IZR z) = z.
Proof. apply Math_round_spec. lra. Qed.

Lemma Math_round_bounds (x : R) :
  IZR (Math_round x) - / 2 <= x < IZR (Math_round x) + / 2.
Proof.
  unfold Math_round. destruct (base_Int_part (x + / 2)) as [H1 H2]. lra.
Qed.

Lemma Math_floor_spec (x : R) (z : Z) :
  IZR z <= x < IZR z + 1 -> Math_floor x = z.
Proof.
  intros [Hlo Hhi]. unfold Math_floor. symmetry.
  apply Int_part_spec. split; lra.
Qed.

Lemma Math_ceil_spec (x : R) (z : Z) :
  IZR z - 1 < x <= IZR z -> Math_ceil x = z.
Proof.
  intros [Hlo Hhi]. unfold Math_ceil.
  rewrite <- (Int_part_spec (- x) (- z)%Z); [lia |].
  rewrite opp_IZR. split; lra.
Qed.

Lemma div_lower (a b c : R) : 0 < b -> c * b <= a -> c <= a / b.
Proof.
  intros Hb H. apply Rmult_le_reg_r with b; [exact Hb |].
  unfold Rdiv. rewrite Rmult_assoc, Rinv_l by lra. lra.
Qed.

Lemma div_upper (a b c : R) : 0 < b -> a <= c * b -> a / b <= c.
Proof.
  intros Hb H. apply Rmult_le_reg_r with b; [exact Hb |].
  unfold Rdiv. rewrite Rmult_assoc, Rinv_l by lra. lra.
Qed.

Lemma div_lower_strict (a b c : R) : 0 < b -> c * b < a -> c < a / b.
Proof.
  intros Hb H. apply Rmult_lt_reg_r with b; [exact Hb |].
  unfold Rdiv. rewrite Rmult_assoc, Rinv_l by lra. lra.
Qed.

Lemma SQRT3_sqr : SQRT3 * SQRT3 = 3.
Proof. unfold SQRT3. apply sqrt_sqrt. lra. Qed.

Lemma SQRT3_bounds : 1.732 < SQRT3 < 1.7321.
Proof.
  pose proof SQRT3_sqr as Hsq.
  assert (Hpos : 0 <= SQRT3) by (unfold SQRT3; apply sqrt_pos).
  split.
  - destruct (Rlt_dec 1.732 SQRT3) as [|Hn]; [assumption | exfalso].
    assert (SQRT3 * SQRT3 <= 1.732 * 1.732) by (apply Rmult_le_compat; lra).
    lra.
  - destruct (Rlt_dec SQRT3 1.7321) as [|Hn]; [assumption | exfalso].
    assert (1.7321 * 1.7321 <= SQRT3 * SQRT3) by (apply Rmult_le_compat; lra).
    lra.
Qed.

End MathFacts.

(** ** Facts about loop ranges *)

Section RangeFacts.

Local Open Scope Z_scope.

Lemma Zrange_length (lo hi : Z) : length (Zrange lo hi) = Z.to_nat (hi - lo + 1).
Proof. apply length_seqZ. Qed.

Lemma Zrange_elem_of (lo hi z : Z) : z ∈ Zrange lo hi <-> lo <= z <= hi.
Proof. unfold Zrange. rewrite elem_of_seqZ. lia. Qed.

Lemma Zrange_NoDup (lo hi : Z) : NoDup (Zrange lo hi).
Proof. apply NoDup_seqZ. Qed.

Lemma Zrange_empty (lo hi : Z) : hi < lo -> Zrange lo hi = [].
Proof. intros H. apply seqZ_nil. lia. Qed.

Lemma Zrange_cons (lo hi : Z) : lo <= hi -> Zrange lo hi = lo :: Zrange (lo + 1) hi.
Proof.
  intros H. unfold Zrange. rewrite seqZ_cons by lia.
  do 2 f_equal; lia.
Qed.

Lemma Zrange_snoc (lo hi : Z) : lo <= hi + 1 -> Zrange lo (hi + 1) = Zrange lo hi ++ [hi + 1].
Proof.
  intros H. unfold Zrange.
  replace (hi + 1 - lo + 1) with ((hi - lo + 1) + 1) by lia.
  rewrite seqZ_app by lia. f_equal.
  rewrite seqZ_cons, seqZ_nil by lia. f_equal. lia.
Qed.

End RangeFacts.

(** ** The pointy-top variant: coordinates, rounding, conversions *)

Module RadialFacts.

Import Radial RoundingRules.
Local Open Scope R_scope.

(** Case analysis on every [Rabs] and every decision in sight, each case left
    to linear arithmetic. *)
Ltac split_abs :=
  repeat match goal with
         | |- context [Rabs ?a] => unfold Rabs at 1; destruct (Rcase_abs a)
         | H : context [Rabs ?a] |- _ =>
             unfold Rabs in H at 1; destruct (Rcase_abs a)
         end.

Ltac by_cases :=
  repeat match goal with
         | |- context [decide ?P] => destruct (decide P)
         end.

Lemma new_Hex_zero_sum (a b c : R) : a + b + c = 0 -> new_Hex a b c = mkHex a b c.
Proof.
  intros H. unfold new_Hex, Hex_constructor. rewrite H.
  replace 0 with (IZR 0) by reflexivity. rewrite Math_round_IZR.
  destruct (decide (0%Z <> 0%Z)); [contradiction | reflexivity].
Qed.

Lemma new_Hex_integers (a b c : Z) :
  new_Hex (IZR a) (IZR b) (IZR c) =
  if decide ((a + b + c)%Z <> 0%Z) then mkHex (IZR a) (IZR b) (- IZR a - IZR b)
  else mkHex (IZR a) (IZR b) (IZR c).
Proof.
  unfold new_Hex, Hex_constructor.
  rewrite <- !plus_IZR, Math_round_IZR. reflexivity.
Qed.

(** [hex_round] with the constructor calls resolved: each of them gets a
    triple whose sum is zero. *)
Lemma hex_round_unfold (h : Hex) :
  hex_round h =
  let rx := IZR (Math_round (q h)) in
  let ry := IZR (Math_round (r h)) in
  let rz := IZR (Math_round (s h)) in
  if decide (error_q h > error_r h /\ error_q h > error_s h) then mkHex (- ry - rz) ry rz
  else if decide (error_r h > error_s h) then mkHex rx (- rx - rz) rz
  else mkHex rx ry (- rx - ry).
Proof.
  unfold hex_round, error_q, error_r, error_s, Math_abs. cbv zeta.
  by_cases; apply new_Hex_zero_sum; lra.
Qed.

(** C4 (the claim as worded fails): on the fractional triple
    (0.5, 0.5, -1), where the errors of q and r are both 0.5 and the error of
    s is 0, [hex_round] recomputes r and returns (1, 0, -1), whereas asking
    the axes in the order q, r, s for the largest error recomputes q and
    gives (0, 1, -1). *)
Lemma hex_round_tie_not_earliest :
  hex_round (mkHex (1 / 2) (1 / 2) (- 1)) = mkHex 1 0 (- 1) /\
  round_earliest_largest (mkHex (1 / 2) (1 / 2) (- 1)) = mkHex 0 1 (- 1) /\
  hex_round (mkHex (1 / 2) (1 / 2) (- 1))
    <> round_earliest_largest (mkHex (1 / 2) (1 / 2) (- 1)).
Proof.
  assert (H1 : Math_round (1 / 2) = 1%Z) by (apply Math_round_spec; lra).
  assert (H2 : Math_round (- 1) = (- 1)%Z) by (apply Math_round_spec; lra).
  assert (Hc : hex_round (mkHex (1 / 2) (1 / 2) (- 1)) = mkHex 1 0 (- 1)).
  { rewrite hex_round_unfold. unfold error_q, error_r, error_s. cbn [q r s].
    rewrite H1, H2. cbv zeta. by_cases; split_abs; try lra; f_equal; lra. }
  assert (Hs : round_earliest_largest (mkHex (1 / 2) (1 / 2) (- 1)) = mkHex 0 1 (- 1)).
  { unfold round_earliest_largest, error_q, error_r, error_s. cbn [q r s].
    rewrite H1, H2. cbv zeta. by_cases; split_abs; try lra; f_equal; lra. }
  split; [exact Hc | split; [exact Hs |]].
  rewrite Hc, Hs. intros Heq. apply (f_equal q) in Heq. cbn [q] in Heq. lra.
Qed.

(** C4 (amended): [hex_round] rounds the three components independently
    and recomputes one axis whose rounding error is the largest, from the
    other two; when the largest error is shared the later axis is the one
    recomputed (s before r before q).  When the three errors are pairwise
    distinct this is the axis the order q, r, s finds. *)
Theorem hex_round_latest_largest (h : Hex) :
  hex_round h = round_latest_largest h /\
  (errors_distinct h -> hex_round h = round_earliest_largest h).
Proof.
  rewrite hex_round_unfold. unfold round_latest_largest, round_earliest_largest.
  cbv zeta. split.
  - by_cases; try reflexivity; exfalso; lra.
  - intros (Hqr & Hqs & Hrs).
    by_cases; try reflexivity; exfalso; lra.
Qed.

Lemma hex_round_latest_largest_witness :
  errors_distinct (mkHex 0.4 0.1 (- 0.5)) /\
  hex_round (mkHex 0.4 0.1 (- 0.5)) = round_earliest_largest (mkHex 0.4 0.1 (- 0.5)).
Proof.
  assert (H1 : Math_round 0.4 = 0%Z) by (apply Math_round_spec; lra).
  assert (H2 : Math_round 0.1 = 0%Z) by (apply Math_round_spec; lra).
  assert (H3 : Math_round (- 0.5) = 0%Z) by (apply Math_round_spec; lra).
  assert (Hd : errors_distinct (mkHex 0.4 0.1 (- 0.5))).
  { unfold errors_distinct, error_q, error_r, error_s. cbn [q r s].
    rewrite H1, H2, H3. repeat split; split_abs; intros Heq; lra. }
  split; [exact Hd |].
  exact (proj2 (hex_round_latest_largest (mkHex 0.4 0.1 (- 0.5))) Hd).
Defined.

(** C6: the zero-sum invariant.  The forgiving constructor returns a
    zero-sum integer triple on integer (or missing) arguments, deriving the
    third component when three numbers are given whose sum is not zero;
    [add] of two zero-sum coordinates is zero-sum; the result of
    [hex_round] is a zero-sum integer coordinate for every fractional
    input; and a coordinate the strict constructor returns is zero-sum. *)
Theorem zero_sum_invariant :
  (forall a b c : option Z,
      zero_sum (Hex_constructor (IZR <$> a) (IZR <$> b) (IZR <$> c)) /\
      integral (Hex_constructor (IZR <$> a) (IZR <$> b) (IZR <$> c))) /\
  (forall a b c : Z,
      (a + b + c)%Z <> 0%Z ->
      new_Hex (IZR a) (IZR b) (IZR c) = mkHex (IZR a) (IZR b) (IZR (- a - b))) /\
  (forall hexA hexB : Hex,
      zero_sum hexA -> zero_sum hexB -> zero_sum (add hexA hexB)) /\
  (forall h : Hex, zero_sum (hex_round h) /\ integral (hex_round h)) /\
  (forall (a b c : Z) (h : Script.Hex),
      Script.Hex_constructor a b c = Script.Ok h ->
      (Script.q h + Script.r h + Script.s h)%Z = 0%Z).
Proof.
  split; [| split; [| split; [| split]]].
  - intros [a|] [b|] [c|]; cbn [fmap option_fmap option_map];
      try (split; [unfold zero_sum, Hex_constructor; cbn [q r s]; lra |]).
    + fold (new_Hex (IZR a) (IZR b) (IZR c)). rewrite new_Hex_integers.
      destruct (decide ((a + b + c)%Z <> 0%Z)) as [Hne | He].
      * split; [unfold zero_sum; cbn [q r s]; lra |].
        exists a, b, (- a - b)%Z. rewrite minus_IZR, opp_IZR. reflexivity.
      * split; [| exists a, b, c; reflexivity].
        unfold zero_sum. cbn [q r s]. rewrite <- !plus_IZR.
        replace (a + b + c)%Z with 0%Z by lia. reflexivity.
    + exists a, b, (- a - b)%Z. unfold Hex_constructor.
      rewrite minus_IZR, opp_IZR. reflexivity.
    + exists a, (- a - c)%Z, c. unfold Hex_constructor.
      rewrite minus_IZR, opp_IZR. reflexivity.
    + exists 0%Z, 0%Z, 0%Z. reflexivity.
    + exists (- b - c)%Z, b, c. unfold Hex_constructor.
      rewrite minus_IZR, opp_IZR. reflexivity.
    + exists 0%Z, 0%Z, 0%Z. reflexivity.
    + exists 0%Z, 0%Z, 0%Z. reflexivity.
    + exists 0%Z, 0%Z, 0%Z. reflexivity.
  - intros a b c Hne. rewrite new_Hex_integers.
    destruct (decide ((a + b + c)%Z <> 0%Z)); [| contradiction].
    rewrite minus_IZR, opp_IZR. reflexivity.
  - intros hexA hexB HA HB. unfold zero_sum in *. unfold add.
    rewrite new_Hex_zero_sum by lra. cbn [q r s]. lra.
  - intros h. rewrite hex_round_unfold. cbv zeta.
    set (a := Math_round (q h)). set (b := Math_round (r h)).
    set (c := Math_round (s h)).
    by_cases; (split; [unfold zero_sum; cbn [q r s]; lra |]).
    + exists (- b - c)%Z, b, c. rewrite minus_IZR, opp_IZR. reflexivity.
    + exists a, (- a - c)%Z, c. rewrite minus_IZR, opp_IZR. reflexivity.
    + exists a, b, (- a - b)%Z. rewrite minus_IZR, opp_IZR. reflexivity.
  - intros a b c h. unfold Script.Hex_constructor.
    destruct (decide ((a + b + c)%Z <> 0%Z)) as [Hne | He]; [discriminate |].
    intros [= <-]. cbn. lia.
Qed.

Lemma zero_sum_invariant_witness :
  (1 + 2 + 5)%Z <> 0%Z /\
  new_Hex (IZR 1) (IZR 2) (IZR 5) = mkHex (IZR 1) (IZR 2) (IZR (- 1 - 2)) /\
  zero_sum (mkHex 1 0 (- 1)) /\ zero_sum (mkHex 0 1 (- 1)) /\
  zero_sum (add (mkHex 1 0 (- 1)) (mkHex 0 1 (- 1))).
Proof.
  assert (H0 : (1 + 2 + 5)%Z <> 0%Z) by lia.
  assert (H1 : zero_sum (mkHex 1 0 (- 1))) by (unfold zero_sum; cbn [q r s]; lra).
  assert (H2 : zero_sum (mkHex 0 1 (- 1))) by (unfold zero_sum; cbn [q r s]; lra).
  split; [exact H0 |].
  split; [exact (proj1 (proj2 zero_sum_invariant) 1%Z 2%Z 5%Z H0) |].
  split; [exact H1 |]. split; [exact H2 |].
  exact (proj1 (proj2 (proj2 zero_sum_invariant)) _ _ H1 H2).
Defined.



(** [pixel_to_hex] under the layout of [onHexClick]: both fractional axial
    coordinates are the same combination of the normalised point. *)
Lemma pixel_to_hex_current (point center : Point) (size : R) :
  pixel_to_hex point (current_layout size center) =
  let a := SQRT3 * ((x point - x center) / size)
           + SQRT3 / 2 * ((y point - y center) / size) in
  hex_round (mkHex a a (- a - a)).
Proof.
  unfold pixel_to_hex, current_layout.
  cbn [orientation hex_size origin HEX_CONSTANTS_orientation f0 f1 f2 f3 x y
       size_q size_r].
  cbv zeta. rewrite new_Hex_zero_sum by lra. reflexivity.
Qed.

(** [hex_round] at a triple whose roundings and error order are known. *)
Lemma hex_round_second_branch (h : Hex) (a b c : Z) :
  IZR a - / 2 <= q h < IZR a + / 2 ->
  IZR b - / 2 <= r h < IZR b + / 2 ->
  IZR c - / 2 <= s h < IZR c + / 2 ->
  Rabs (IZR a - q h) <= Rabs (IZR b - r h) ->
  Rabs (IZR b - r h) > Rabs (IZR c - s h) ->
  hex_round h = mkHex (IZR a) (- IZR a - IZR c) (IZR c).
Proof.
  intros Ha Hb Hc Hab Hbc. rewrite hex_round_unfold.
  unfold error_q, error_r, error_s.
  rewrite (Math_round_spec _ _ Ha), (Math_round_spec _ _ Hb), (Math_round_spec _ _ Hc).
  cbv zeta. by_cases; try reflexivity; exfalso; lra.
Qed.

Lemma hex_round_third_branch (h : Hex) (a b c : Z) :
  IZR a - / 2 <= q h < IZR a + / 2 ->
  IZR b - / 2 <= r h < IZR b + / 2 ->
  IZR c - / 2 <= s h < IZR c + / 2 ->
  Rabs (IZR a - q h) <= Rabs (IZR c - s h) ->
  Rabs (IZR b - r h) <= Rabs (IZR c - s h) ->
  hex_round h = mkHex (IZR a) (IZR b) (- IZR a - IZR b).
Proof.
  intros Ha Hb Hc Hac Hbc. rewrite hex_round_unfold.
  unfold error_q, error_r, error_s.
  rewrite (Math_round_spec _ _ Ha), (Math_round_spec _ _ Hb), (Math_round_spec _ _ Hc).
  cbv zeta. by_cases; try reflexivity; exfalso; lra.
Qed.

(** The layout of the end-to-end scenario: cell size 50, origin (400, 300). *)
Lemma scenario_center :
  pixel_to_hex (mkPoint 400 300) (current_layout 50 (mkPoint 400 300)) = mkHex 0 0 0.
Proof.
  rewrite pixel_to_hex_current. cbn [x y]. cbv zeta.
  pose proof SQRT3_bounds as HS.
  rewrite (hex_round_third_branch _ 0 0 0); cbn [q r s];
    try (split_abs; lra).
  f_equal. lra.
Qed.

Lemma scenario_above :
  pixel_to_hex (mkPoint 400 150) (current_layout 50 (mkPoint 400 300))
  = mkHex (- 3) (- 2) 5.
Proof.
  rewrite pixel_to_hex_current. cbn [x y]. cbv zeta.
  pose proof SQRT3_bounds as HS.
  rewrite (hex_round_second_branch _ (- 3) (- 3) 5); cbn [q r s];
    try (split_abs; lra).
  f_equal. lra.
Qed.

(** C2 (the claim as worded fails): in the scenario the click at
    (400, 150) resolves to a coordinate whose r component is -2, not -1. *)
Lemma scenario_above_r_not_minus_1 :
  ~ (pixel_to_hex (mkPoint 400 300) (current_layout 50 (mkPoint 400 300)) = mkHex 0 0 0 /\
     r (pixel_to_hex (mkPoint 400 150) (current_layout 50 (mkPoint 400 300))) = - 1).
Proof.
  intros [_ H]. rewrite scenario_above in H. cbn [r] in H. lra.
Qed.

(** C2 (amended): in the scenario the click at (400, 300) resolves to
    (0, 0, 0) and the click at (400, 150) resolves to a coordinate whose r
    component is -2. *)
Theorem scenario_clicks :
  pixel_to_hex (mkPoint 400 300) (current_layout 50 (mkPoint 400 300)) = mkHex 0 0 0 /\
  r (pixel_to_hex (mkPoint 400 150) (current_layout 50 (mkPoint 400 300))) = - 2.
Proof.
  split; [exact scenario_center |].
  rewrite scenario_above. reflexivity.
Qed.

(** Round trip under the layout of [drawHex] and [onHexClick]: the pixel
    centre of a hex converts back to the rounding of a triple whose q and r
    are both 9/2 q + 9/4 r. *)
Lemma round_trip_collapse (h : Hex) (size : R) (center : Point) :
  size <> 0 ->
  pixel_to_hex (hex_to_pixel h (current_layout size center)) (current_layout size center)
  = let a := 9 / 2 * q h + 9 / 4 * r h in hex_round (mkHex a a (- a - a)).
Proof.
  intros Hsize. rewrite pixel_to_hex_current. cbv zeta.
  unfold hex_to_pixel, current_layout.
  cbn [orientation hex_size origin HEX_CONSTANTS_orientation f0 f1 f2 f3 x y
       size_q size_r].
  set (t := SQRT3 * q h + SQRT3 / 2 * r h).
  replace ((size * t + x center - x center) / size) with t by (field; exact Hsize).
  replace ((size * t + y center - y center) / size) with t by (field; exact Hsize).
  assert (Ha : SQRT3 * t + SQRT3 / 2 * t = 9 / 2 * q h + 9 / 4 * r h).
  { subst t.
    replace (SQRT3 * (SQRT3 * q h + SQRT3 / 2 * r h)
             + SQRT3 / 2 * (SQRT3 * q h + SQRT3 / 2 * r h))
      with ((SQRT3 * SQRT3) * (3 / 2 * q h + 3 / 4 * r h)) by field.
    rewrite SQRT3_sqr. field. }
  rewrite Ha. reflexivity.
Qed.

(** C1 (the code at a failing input): with cell size 50 and origin
    (400, 300), the hex (2, 0, -2) is projected by [hex_to_pixel] and
    converted back by [pixel_to_hex] to (9, 9, -18), not to itself. *)
Theorem round_trip_fails :
  pixel_to_hex (hex_to_pixel (mkHex 2 0 (- 2)) (current_layout 50 (mkPoint 400 300)))
               (current_layout 50 (mkPoint 400 300))
  = mkHex 9 9 (- 18) /\
  pixel_to_hex (hex_to_pixel (mkHex 2 0 (- 2)) (current_layout 50 (mkPoint 400 300)))
               (current_layout 50 (mkPoint 400 300))
  <> mkHex 2 0 (- 2).
Proof.
  assert (H : pixel_to_hex
                (hex_to_pixel (mkHex 2 0 (- 2)) (current_layout 50 (mkPoint 400 300)))
                (current_layout 50 (mkPoint 400 300)) = mkHex 9 9 (- 18)).
  { rewrite round_trip_collapse by lra. cbn [q r]. cbv zeta.
    rewrite (hex_round_third_branch _ 9 9 (- 18)); cbn [q r s];
      try (split_abs; lra).
    f_equal. lra. }
  split; [exact H |].
  rewrite H. intros Heq. apply (f_equal q) in Heq. cbn [q] in Heq. lra.
Qed.

End RadialFacts.

(** ** The radius-bounded grid *)

Module DiskFacts.

Import Radial RadialNotions.
Local Open Scope Z_scope.

Lemma cell_inj (a b a' b' : Z) : cell a b = cell a' b' -> a = a' /\ b = b'.
Proof.
  unfold cell. intros H. injection H as Ha Hb _.
  split; apply eq_IZR; assumption.
Qed.

Lemma grid_loop_cells (R : Z) :
  grid_loop R = a ← Zrange (- R) R; b ← Zrange (row_lo R a) (row_hi R a); [cell a b].
Proof.
  unfold grid_loop. apply list_bind_ext; [| reflexivity]. intros a.
  apply list_bind_ext; [| reflexivity]. intros b. cbv zeta.
  rewrite RadialFacts.new_Hex_integers.
  destruct (decide (a + b + (- a - b) <> 0)) as [Hne | _]; [lia | reflexivity].
Qed.

Lemma Zsum_cons (f : Z -> Z) (a : Z) (l : list Z) : Zsum f (a :: l) = f a + Zsum f l.
Proof. reflexivity. Qed.

Lemma Zsum_app (f : Z -> Z) (l1 l2 : list Z) : Zsum f (l1 ++ l2) = Zsum f l1 + Zsum f l2.
Proof.
  induction l1 as [|a l1 IH]; [reflexivity |].
  rewrite <- app_comm_cons, !Zsum_cons, IH. lia.
Qed.

Lemma Zsum_ext (f g : Z -> Z) (l : list Z) :
  (forall a, a ∈ l -> f a = g a) -> Zsum f l = Zsum g l.
Proof.
  induction l as [|a l IH]; intros H; [reflexivity |].
  rewrite !Zsum_cons, (H a) by apply list_elem_of_here.
  rewrite IH; [reflexivity |]. intros b Hb. apply H. now apply list_elem_of_further.
Qed.

(** Twice the sum of [c + d * a] for the [n] integers [a] from [lo] on. *)
Lemma Zsum_linear (c d lo : Z) (n : nat) :
  2 * Zsum (fun a => c + d * a) (Zrange lo (lo + Z.of_nat n - 1))
  = Z.of_nat n * (2 * c + d * (2 * lo + Z.of_nat n - 1)).
Proof.
  induction n as [|n IH].
  - rewrite Zrange_empty by lia. cbn. lia.
  - replace (lo + Z.of_nat (S n) - 1) with (lo + Z.of_nat n - 1 + 1) by lia.
    rewrite Zrange_snoc by lia. rewrite Zsum_app, Zsum_cons.
    change (Zsum (fun a => c + d * a) []) with 0. nia.
Qed.

Lemma length_bind_Zsum {B : Type} (f : Z -> list B) (l : list Z) :
  Z.of_nat (length (l ≫= f)) = Zsum (fun a => Z.of_nat (length (f a))) l.
Proof.
  induction l as [|a l IH]; [reflexivity |].
  rewrite bind_cons, length_app, Nat2Z.inj_add, IH, Zsum_cons. reflexivity.
Qed.

Lemma row_length (R a : Z) :
  - R <= a <= R ->
  Z.of_nat (length (b ← Zrange (row_lo R a) (row_hi R a); [cell a b]))
  = 2 * R + 1 - Z.abs a.
Proof.
  intros Ha. rewrite length_bind_Zsum. cbn [length].
  transitivity (Z.of_nat (length (Zrange (row_lo R a) (row_hi R a)))).
  - generalize (Zrange (row_lo R a) (row_hi R a)) as l.
    induction l as [|b l IH]; [reflexivity |].
    rewrite Zsum_cons, IH. cbn [length]. lia.
  - rewrite Zrange_length. unfold row_lo, row_hi. lia.
Qed.

Lemma grid_loop_length (R : Z) :
  0 <= R -> Z.of_nat (length (grid_loop R)) = 3 * R * R + 3 * R + 1.
Proof.
  intros HR. rewrite grid_loop_cells, length_bind_Zsum.
  rewrite (Zsum_ext _ (fun a => 2 * R + 1 - Z.abs a)).
  2:{ intros a Ha%Zrange_elem_of. now apply row_length. }
  replace (Zrange (- R) R) with (Zrange (- R) (- 1) ++ Zrange (- 1 + 1) R).
  2:{ unfold Zrange. replace (R - - R + 1) with ((- 1 - - R + 1) + (R - (- 1 + 1) + 1)) by lia.
      rewrite (seqZ_app (- R) (- 1 - - R + 1) (R - (- 1 + 1) + 1)) by lia.
      replace (- R + (- 1 - - R + 1)) with (- 1 + 1) by lia. reflexivity. }
  rewrite Zsum_app.
  rewrite (Zsum_ext _ (fun a => (2 * R + 1) + 1 * a) (Zrange (- R) (- 1))).
  2:{ intros a Ha%Zrange_elem_of. lia. }
  rewrite (Zsum_ext _ (fun a => (2 * R + 1) + (- 1) * a) (Zrange (- 1 + 1) R)).
  2:{ intros a Ha%Zrange_elem_of. lia. }
  pose proof (Zsum_linear (2 * R + 1) 1 (- R) (Z.to_nat R)) as H1.
  pose proof (Zsum_linear (2 * R + 1) (- 1) 0 (Z.to_nat (R + 1))) as H2.
  replace (- R + Z.of_nat (Z.to_nat R) - 1) with (- 1) in H1 by lia.
  replace (0 + Z.of_nat (Z.to_nat (R + 1)) - 1) with R in H2 by lia.
  change (- 1 + 1) with 0.
  rewrite !Z2Nat.id in * by lia. nia.
Qed.

Lemma grid_loop_NoDup (R : Z) : NoDup (grid_loop R).
Proof.
  rewrite grid_loop_cells. apply NoDup_bind.
  - intros a a' h _ _ (b & Hh & _)%list_elem_of_bind (b' & Hh' & _)%list_elem_of_bind.
    apply list_elem_of_singleton in Hh, Hh'. subst h.
    apply cell_inj in Hh'. tauto.
  - intros a _. apply NoDup_bind.
    + intros b b' h _ _ Hh Hh'.
      apply list_elem_of_singleton in Hh, Hh'. subst h.
      apply cell_inj in Hh'. tauto.
    + intros b _. apply NoDup_singleton.
    + apply Zrange_NoDup.
  - apply Zrange_NoDup.
Qed.

Lemma grid_loop_elem_of (R : Z) (h : Hex) :
  h ∈ grid_loop R <->
  exists a b c : Z,
    h = mkHex (IZR a) (IZR b) (IZR c) /\ a + b + c = 0 /\
    Z.max (Z.abs a) (Z.max (Z.abs b) (Z.abs c)) <= R.
Proof.
  rewrite grid_loop_cells, list_elem_of_bind. split.
  - intros (a & (b & Hh & Hb%Zrange_elem_of)%list_elem_of_bind & Ha%Zrange_elem_of).
    apply list_elem_of_singleton in Hh. subst h.
    exists a, b, (- a - b). unfold row_lo, row_hi in Hb.
    split; [reflexivity | lia].
  - intros (a & b & c & -> & Hsum & Hmax).
    exists a. split; [| apply Zrange_elem_of; lia].
    apply list_elem_of_bind. exists b. split.
    + apply list_elem_of_singleton. unfold cell. do 2 f_equal. lia.
    + apply Zrange_elem_of. unfold row_lo, row_hi. lia.
Qed.

(** C5: for every radius R >= 0 the two nested loops push exactly the
    zero-sum integer coordinates with max(|q|, |r|, |s|) <= R, each of them
    once, 3R^2 + 3R + 1 coordinates in all. *)
Theorem grid_loop_disk (R : Z) :
  0 <= R ->
  (forall h : Hex,
      h ∈ grid_loop R <->
      exists a b c : Z,
        h = mkHex (IZR a) (IZR b) (IZR c) /\ a + b + c = 0 /\
        Z.max (Z.abs a) (Z.max (Z.abs b) (Z.abs c)) <= R) /\
  NoDup (grid_loop R) /\
  Z.of_nat (length (grid_loop R)) = 3 * R * R + 3 * R + 1.
Proof.
  intros HR. split; [| split].
  - apply grid_loop_elem_of.
  - apply grid_loop_NoDup.
  - now apply grid_loop_length.
Qed.

Lemma grid_loop_disk_witness :
  length (grid_loop 0) = 1%nat /\ length (grid_loop 1) = 7%nat /\
  length (grid_loop 2) = 19%nat.
Proof.
  assert (H0 : 0 <= 0) by lia.
  assert (H1 : 0 <= 1) by lia.
  assert (H2 : 0 <= 2) by lia.
  pose proof (proj2 (proj2 (grid_loop_disk 0 H0))) as L0.
  pose proof (proj2 (proj2 (grid_loop_disk 1 H1))) as L1.
  pose proof (proj2 (proj2 (grid_loop_disk 2 H2))) as L2.
  repeat split; lia.
Defined.

End DiskFacts.

(** ** The pointy-top variant: rebuilding the grid and clicking *)

Module ClickFacts.

Import Radial RadialNotions.
Local Open Scope R_scope.

Lemma equals_true (a b : Hex) : equals a b = true <-> a = b.
Proof.
  unfold equals. rewrite !andb_true_iff, !bool_decide_eq_true.
  destruct a, b; cbn [q r s]. split.
  - intros [[-> ->] ->]. reflexivity.
  - intros H. injection H as -> -> ->. auto.
Qed.

Lemma find_hex_None (c : Hex) (l : list (nat * Hex)) :
  find_hex c l = None <-> c ∉ l.*2.
Proof.
  unfold find_hex. induction l as [|[o h] l IH]; cbn [find fmap list_fmap snd].
  - split; [intros _; apply not_elem_of_nil | reflexivity].
  - destruct (equals h c) eqn:E.
    + apply equals_true in E. subst h. split; [discriminate |].
      intros H. exfalso. apply H. apply list_elem_of_here.
    + rewrite IH, not_elem_of_cons. split; [| tauto].
      intros H. split; [| exact H]. intros Hc.
      assert (equals h c = true) by (apply equals_true; congruence). congruence.
Qed.

Lemma find_hex_Some (c : Hex) (l : list (nat * Hex)) (o : nat * Hex) :
  find_hex c l = Some o -> o ∈ l /\ o.2 = c.
Proof.
  unfold find_hex. intros [Hin Heq]%find_some.
  split; [now apply list_elem_of_In | now apply equals_true].
Qed.

Lemma find_hex_elem_of (c : Hex) (l : list (nat * Hex)) :
  c ∈ l.*2 -> exists n : nat, find_hex c l = Some (n, c) /\ (n, c) ∈ l.
Proof.
  intros Hin. destruct (find_hex c l) as [[n h]|] eqn:E.
  - apply find_hex_Some in E as [Hl Hh]. cbn [snd] in Hh. subst h.
    exists n. split; [reflexivity | exact Hl].
  - apply find_hex_None in E. contradiction.
Qed.

Lemma updateGridDisplay_size (W H : R) (st : State) :
  currentHexSize (updateGridDisplay W H st) = fitted_size W H /\
  currentScreenCenter (updateGridDisplay W H st) = mkPoint (W / 2) (H / 2) /\
  selectedHex (updateGridDisplay W H st) = selectedHex st /\
  selectedHexGraphics (updateGridDisplay W H st) = selectedHexGraphics st.
Proof.
  unfold updateGridDisplay, fitted_size, targetMaxRadius.
  cbn [currentHexSize currentScreenCenter selectedHex selectedHexGraphics].
  destruct (decide (5 > 0)) as [_ | Hn]; [| exfalso; lra].
  replace (2 * 5 + 1) with 11 by lra. auto.
Qed.

Lemma fitted_size_pos (W H : R) : 0 < W -> 0 < H -> 0 < fitted_size W H.
Proof.
  intros HW HH. pose proof SQRT3_bounds as HS. unfold fitted_size.
  assert (0 < W / 11 / SQRT3).
  { apply Rdiv_lt_0_compat; [| lra]. lra. }
  assert (0 < H / 11 / 2) by lra.
  unfold Rmin. destruct (Rle_dec _ _); lra.
Qed.

(** For a window of positive width and height the grid is the disk of
    radius 5, whatever the size of the window. *)
Lemma updateGridDisplay_radius (W H : R) (st : State) :
  0 < W -> 0 < H ->
  currentMaxRadius (updateGridDisplay W H st) = Some 5%Z /\
  (gameHexes (updateGridDisplay W H st)).*2 = grid_loop 5.
Proof.
  intros HW HH. pose proof SQRT3_bounds as HS.
  pose proof (fitted_size_pos W H HW HH) as Hpos.
  assert (Hrad : currentMaxRadius (updateGridDisplay W H st) = Some 5%Z).
  { unfold updateGridDisplay, targetMaxRadius. cbn [currentMaxRadius].
    destruct (decide (5 > 0)) as [_ | Hn]; [| exfalso; lra].
    replace (2 * 5 + 1) with 11 by lra.
    fold (fitted_size W H). set (size := fitted_size W H) in *.
    destruct (decide (size = 0)) as [H0 | _]; [exfalso; lra |].
    f_equal.
    assert (Hmin : Rmin ((H / size / 2 - 1) / 2) ((W / size / SQRT3 - 1) / 2)
                   = (11 / 0.9 - 1) / 2).
    { assert (Hh : 22 / 0.9 <= H / size).
      { apply div_lower; [exact Hpos |]. subst size. unfold fitted_size.
        pose proof (Rmin_r (W / 11 / SQRT3) (H / 11 / 2)). lra. }
      assert (Hw : 11 / 0.9 * SQRT3 <= W / size).
      { apply div_lower; [exact Hpos |]. subst size. unfold fitted_size.
        pose proof (Rmin_l (W / 11 / SQRT3) (H / 11 / 2)) as Hl.
        assert (Hx : W / 11 / SQRT3 * SQRT3 = W / 11) by (field; lra).
        assert (Hm : Rmin (W / 11 / SQRT3) (H / 11 / 2) * SQRT3 <= W / 11).
        { apply Rle_trans with (W / 11 / SQRT3 * SQRT3); [| lra].
          apply Rmult_le_compat_r; lra. }
        lra. }
      assert (Hw' : 11 / 0.9 <= W / size / SQRT3).
      { apply div_lower; lra. }
      subst size. unfold fitted_size in *.
      destruct (Rle_dec (W / 11 / SQRT3) (H / 11 / 2)) as [Hle | Hgt].
      - rewrite (Rmin_left (W / 11 / SQRT3) (H / 11 / 2)) in * by exact Hle.
        replace (W / (W / 11 / SQRT3 * 0.9) / SQRT3) with (11 / 0.9) by (field; lra).
        rewrite Rmin_right by lra. lra.
      - rewrite (Rmin_right (W / 11 / SQRT3) (H / 11 / 2)) in * by lra.
        replace (H / (H / 11 / 2 * 0.9)) with (22 / 0.9) by (field; lra).
        rewrite Rmin_left by lra. lra. }
    rewrite Hmin. rewrite (Math_floor_spec _ 5); [reflexivity | lra]. }
  split; [exact Hrad |].
  unfold updateGridDisplay in Hrad |- *. cbn [currentMaxRadius gameHexes] in Hrad |- *.
  rewrite Hrad. apply snd_zip. rewrite length_seq. lia.
Qed.

(** For a window one of whose dimensions is 0 the grid is empty; the
    selection is kept as it is by every rebuild. *)
Lemma updateGridDisplay_degenerate (W H : R) (st : State) :
  fitted_size W H = 0 ->
  gameHexes (updateGridDisplay W H st) = [] /\
  selectedHex (updateGridDisplay W H st) = selectedHex st.
Proof.
  intros Hz. split; [| apply updateGridDisplay_size].
  unfold updateGridDisplay, targetMaxRadius. cbn [gameHexes].
  destruct (decide (5 > 0)) as [_ | Hn]; [| exfalso; lra].
  replace (2 * 5 + 1) with 11 by lra. fold (fitted_size W H). rewrite Hz.
  destruct (decide (0 = 0)) as [_ | Hn]; [reflexivity | contradiction].
Qed.

Lemma onHexClick_frame (p : Point) (st : State) :
  gameHexes (onHexClick p st) = gameHexes st /\
  currentHexSize (onHexClick p st) = currentHexSize st /\
  currentScreenCenter (onHexClick p st) = currentScreenCenter st.
Proof.
  unfold onHexClick.
  destruct (find_hex _ _) as [o|]; destruct (selectedHexGraphics st);
    cbn [hexGraphicsMap]; try destruct (_ !! o.1); auto.
Qed.

Lemma onHexClick_not_found (p : Point) (st : State) :
  find_hex (clicked_hex p st) (gameHexes st) = None ->
  selectedHexGraphics (onHexClick p st) = None /\
  selectedHex (onHexClick p st)
  = match selectedHexGraphics st with Some _ => None | None => selectedHex st end /\
  (selectedHexGraphics st = None -> onHexClick p st = st).
Proof.
  unfold clicked_hex, onHexClick. intros ->.
  destruct (selectedHexGraphics st) eqn:E; cbn;
    repeat split; auto; discriminate.
Qed.

Lemma onHexClick_found (p : Point) (st : State) (o : nat * Hex) :
  find_hex (clicked_hex p st) (gameHexes st) = Some o ->
  is_Some (hexGraphicsMap st !! o.1) ->
  selectedHex (onHexClick p st) = Some o /\
  selectedHexGraphics (onHexClick p st) = Some o.1.
Proof.
  unfold clicked_hex, onHexClick. intros -> [g Hg].
  destruct (selectedHexGraphics st) as [g0|]; cbn [hexGraphicsMap].
  - assert (Hsome : is_Some
      (match selectedHex st with
       | Some hex => match hexGraphicsMap st !! hex.1 with
                     | Some _ => <[hex.1 := Default_style]> (hexGraphicsMap st)
                     | None => hexGraphicsMap st
                     end
       | None => hexGraphicsMap st
       end !! o.1)).
    { destruct (selectedHex st) as [hex|]; [| eauto].
      destruct (hexGraphicsMap st !! hex.1); [| eauto].
      rewrite lookup_insert. case_decide; eauto. }
    destruct Hsome as [g' ->]. auto.
  - rewrite Hg. auto.
Qed.

Lemma onHexClick_paired (p : Point) (st : State) :
  selection_paired st -> selection_paired (onHexClick p st).
Proof.
  unfold selection_paired, onHexClick. intros Hst.
  destruct (find_hex _ _) as [o|]; destruct (selectedHexGraphics st) eqn:E;
    cbn [hexGraphicsMap selectedHex selectedHexGraphics];
    try destruct (_ !! o.1);
    cbn [hexGraphicsMap selectedHex selectedHexGraphics];
    rewrite ?E; try tauto; split; discriminate.
Qed.

Lemma reachable_paired (st : State) : reachable st -> selection_paired st.
Proof.
  induction 1 as [W H | W H st _ IH | p st _ IH].
  - unfold selection_paired. cbn. tauto.
  - unfold selection_paired in *.
    destruct (updateGridDisplay_size W H st) as (_ & _ & -> & ->). exact IH.
  - now apply onHexClick_paired.
Qed.

(** C8 (amended): in every state the page reaches, a click whose
    converted coordinate is absent from the grid leaves the state Unselected:
    a selection made before is cleared, and nothing changes when nothing was
    selected.  The handler is a total function of the click point and the
    state; nothing in it throws. *)
Theorem onHexClick_no_match (clickPoint : Point) (st : State) :
  reachable st ->
  find_hex (clicked_hex clickPoint st) (gameHexes st) = None ->
  selectedHex (onHexClick clickPoint st) = None /\
  selectedHexGraphics (onHexClick clickPoint st) = None /\
  (selectedHex st = None -> onHexClick clickPoint st = st).
Proof.
  intros Hreach Hnone.
  pose proof (reachable_paired st Hreach) as Hp. unfold selection_paired in Hp.
  destruct (onHexClick_not_found clickPoint st Hnone) as (Hg & Hh & Hsame).
  split; [| split; [exact Hg |]].
  - rewrite Hh. destruct (selectedHexGraphics st); [reflexivity | tauto].
  - intros Hsel. apply Hsame. tauto.
Qed.

Lemma updateGridDisplay_graphics (W H : R) (st : State) (o : nat * Hex) :
  o ∈ gameHexes (updateGridDisplay W H st) ->
  is_Some (hexGraphicsMap (updateGridDisplay W H st) !! o.1).
Proof.
  unfold updateGridDisplay. cbn [gameHexes hexGraphicsMap].
  intros Ho. apply not_eq_None_Some. intros Hnone.
  apply not_elem_of_list_to_map_2 in Hnone. apply Hnone.
  rewrite <- list_fmap_compose. apply list_elem_of_fmap. exists o. auto.
Qed.

Lemma session_grid_facts :
  currentHexSize session_grid = 270 / 11 /\
  currentScreenCenter session_grid = mkPoint 400 300 /\
  (gameHexes session_grid).*2 = grid_loop 5 /\
  selectedHexGraphics session_grid = None.
Proof.
  unfold session_grid. pose proof SQRT3_bounds as HS.
  destruct (updateGridDisplay_size 800 600 initial_state) as (-> & -> & _ & ->).
  destruct (updateGridDisplay_radius 800 600 initial_state) as [_ ->]; [lra | lra |].
  repeat split.
  - unfold fitted_size. rewrite Rmin_right; [lra |].
    apply div_lower; lra.
  - f_equal; lra.
Qed.

Lemma session_selected_facts :
  reachable session_selected /\
  currentHexSize session_selected = 270 / 11 /\
  currentScreenCenter session_selected = mkPoint 400 300 /\
  (gameHexes session_selected).*2 = grid_loop 5 /\
  exists n : nat,
    selectedHex session_selected = Some (n, mkHex 0 0 0) /\
    selectedHexGraphics session_selected = Some n.
Proof.
  destruct session_grid_facts as (Hsize & Hcenter & Hgrid & Hnone).
  unfold session_selected.
  destruct (onHexClick_frame (mkPoint 400 300) session_grid) as (-> & -> & ->).
  split; [apply reachable_click, reachable_init |].
  split; [exact Hsize |]. split; [exact Hcenter |]. split; [exact Hgrid |].
  assert (Hclick : clicked_hex (mkPoint 400 300) session_grid = mkHex 0 0 0).
  { unfold clicked_hex. rewrite Hsize, Hcenter, RadialFacts.pixel_to_hex_current.
    cbn [x y]. cbv zeta.
    rewrite (RadialFacts.hex_round_third_branch _ 0 0 0); cbn [q r s];
      try (RadialFacts.split_abs; lra).
    f_equal. lra. }
  assert (Hin : mkHex 0 0 0 ∈ (gameHexes session_grid).*2).
  { rewrite Hgrid. apply DiskFacts.grid_loop_elem_of.
    exists 0%Z, 0%Z, 0%Z. split; [reflexivity | lia]. }
  destruct (find_hex_elem_of _ _ Hin) as (n & Hfind & Hmem).
  exists n.
  assert (Hfind' : find_hex (clicked_hex (mkPoint 400 300) session_grid)
                     (gameHexes session_grid) = Some (n, mkHex 0 0 0))
    by (rewrite Hclick; exact Hfind).
  apply (onHexClick_found _ _ _ Hfind').
  apply (updateGridDisplay_graphics 800 600 initial_state (n, mkHex 0 0 0)).
  exact Hmem.
Qed.

Lemma session_click_outside :
  clicked_hex (mkPoint 0 0) session_selected = mkHex (- 39) (- 39) 78 /\
  find_hex (clicked_hex (mkPoint 0 0) session_selected) (gameHexes session_selected) = None.
Proof.
  destruct session_selected_facts as (_ & Hsize & Hcenter & Hgrid & _).
  pose proof SQRT3_bounds as HS.
  assert (Hclick : clicked_hex (mkPoint 0 0) session_selected = mkHex (- 39) (- 39) 78).
  { unfold clicked_hex. rewrite Hsize, Hcenter, RadialFacts.pixel_to_hex_current.
    cbn [x y]. cbv zeta.
    rewrite (RadialFacts.hex_round_third_branch _ (- 39) (- 39) 78); cbn [q r s];
      try (RadialFacts.split_abs; lra).
    f_equal. lra. }
  split; [exact Hclick |].
  rewrite Hclick. apply find_hex_None. rewrite Hgrid.
  intros (a & b & c & Heq & _ & Hmax)%DiskFacts.grid_loop_elem_of.
  injection Heq as Ha _ _.
  replace (- 39) with (IZR (- 39)) in Ha by reflexivity.
  apply eq_IZR in Ha. lia.
Qed.

(** C8 (the claim as worded fails): after the centre hex was selected, a
    click at the corner (0, 0) of the window converts to (-39, -39, 78),
    which is not in the grid, and the selection is cleared instead of being
    left as it was. *)
Lemma no_match_clears_selection :
  reachable session_selected /\
  find_hex (clicked_hex (mkPoint 0 0) session_selected) (gameHexes session_selected) = None /\
  selectedHex (onHexClick (mkPoint 0 0) session_selected) <> selectedHex session_selected.
Proof.
  destruct session_selected_facts as (Hreach & _ & _ & _ & n & Hsel & Hg).
  destruct session_click_outside as [_ Hnone].
  split; [exact Hreach |]. split; [exact Hnone |].
  destruct (onHexClick_not_found _ _ Hnone) as (_ & -> & _).
  rewrite Hg, Hsel. discriminate.
Qed.

Lemma onHexClick_no_match_witness :
  selectedHex (onHexClick (mkPoint 0 0) session_selected) = None /\
  selectedHexGraphics (onHexClick (mkPoint 0 0) session_selected) = None.
Proof.
  destruct (onHexClick_no_match (mkPoint 0 0) session_selected
              (proj1 session_selected_facts) (proj2 session_click_outside))
    as (H1 & H2 & _).
  split; [exact H1 | exact H2].
Defined.

End ClickFacts.

(** ** The strict variant: identifiers, the rectangle sweep, the renderer *)

Module ScriptFacts.

Import Script ScriptNotions.

(** *** Identifiers *)

Lemma comma_free_app (a b : string) :
  comma_free a -> comma_free b -> comma_free (a +:+ b).
Proof.
  induction a as [|c a IH]; cbn; [auto |].
  intros [Hc Ha] Hb. split; [exact Hc | now apply IH].
Qed.

Lemma pretty_N_char_no_comma (n : N) : pretty_N_char n <> ","%char.
Proof. unfold pretty_N_char. repeat case_match; discriminate. Qed.

Lemma pretty_N_go_comma_free (n : N) (acc : string) :
  comma_free acc -> comma_free (pretty_N_go n acc).
Proof.
  revert acc. induction (N.lt_wf_0 n) as [n _ IH]. intros acc Hacc.
  assert (n = 0 \/ 0 < n)%N as [-> | Hpos] by lia.
  - rewrite pretty_N_go_0. exact Hacc.
  - rewrite pretty_N_go_step by exact Hpos. apply IH.
    + now apply N.div_lt.
    + cbn. split; [apply pretty_N_char_no_comma | exact Hacc].
Qed.

Lemma pretty_N_comma_free (n : N) : comma_free (pretty n).
Proof.
  unfold pretty, pretty_N. case_decide.
  - cbn. split; [discriminate | exact I].
  - apply pretty_N_go_comma_free. exact I.
Qed.

Lemma pretty_Z_comma_free (z : Z) : comma_free (pretty z).
Proof.
  destruct z as [|p|p]; unfold pretty, pretty_Z.
  - cbn. split; [discriminate | exact I].
  - apply pretty_N_comma_free.
  - apply comma_free_app; [| apply pretty_N_comma_free].
    cbn. split; [discriminate | exact I].
Qed.

(** Two strings that agree after a comma-free prefix and a comma have the
    same prefix and the same rest. *)
Lemma comma_split (a a' b b' : string) :
  comma_free a -> comma_free a' ->
  a +:+ "," +:+ b = a' +:+ "," +:+ b' -> a = a' /\ b = b'.
Proof.
  revert a'. induction a as [|c a IH]; intros [|c' a']; cbn; intros Ha Ha' Heq.
  - injection Heq as Hb. auto.
  - injection Heq as Hc _. destruct Ha' as [Hc' _]. congruence.
  - injection Heq as Hc _. destruct Ha as [Hc' _]. congruence.
  - injection Heq as Hc Heq. destruct Ha as [_ Ha], Ha' as [_ Ha'].
    destruct (IH a' Ha Ha' Heq) as [Ha0 Hb]. subst. auto.
Qed.

Lemma Hex_id_inj (a b c a' b' c' : Z) :
  Hex_id a b c = Hex_id a' b' c' -> a = a' /\ b = b' /\ c = c'.
Proof.
  unfold Hex_id. intros H.
  apply comma_split in H as [Ha H]; try apply pretty_Z_comma_free.
  apply comma_split in H as [Hb Hc]; try apply pretty_Z_comma_free.
  repeat split; now apply (inj pretty).
Qed.

Lemma id_inj (h h' : Hex) : id h = id h' -> h = h'.
Proof.
  destruct h, h'. unfold id. cbn [q r s].
  intros (-> & -> & ->)%Hex_id_inj. reflexivity.
Qed.

Lemma id_nonempty (h : Hex) : id h <> "".
Proof.
  unfold id, Hex_id. destruct (pretty (q h)); cbn; discriminate.
Qed.

(** *** The constructor *)

(** C9: the strict constructor throws exactly when q + r + s is not 0, and
    otherwise returns the coordinate with the three components as given. *)
Theorem Hex_constructor_strict (a b c : Z) :
  ((exists msg : string, Hex_constructor a b c = Throw msg) <-> (a + b + c)%Z <> 0%Z) /\
  ((a + b + c)%Z <> 0%Z -> Hex_constructor a b c = Throw (sum_error_message a b c)) /\
  ((a + b + c)%Z = 0%Z ->
     Hex_constructor a b c = Ok (mkHex a b c) /\
     forall h : Hex, Hex_constructor a b c = Ok h -> q h = a /\ r h = b /\ s h = c).
Proof.
  unfold Hex_constructor.
  destruct (decide ((a + b + c)%Z <> 0%Z)) as [Hne | He].
  - split; [| split].
    + split; [auto | eauto].
    + reflexivity.
    + intros H0. contradiction.
  - split; [| split].
    + split; [intros [msg Hm]; discriminate | intros Hne; contradiction].
    + intros Hne. contradiction.
    + intros _. split; [reflexivity |].
      intros h [= <-]. auto.
Qed.

Lemma Hex_constructor_strict_witness :
  Hex_constructor 1 2 3 = Throw (sum_error_message 1 2 3) /\
  Hex_constructor 1 2 (- 3) = Ok (mkHex 1 2 (- 3)).
Proof.
  split.
  - apply (proj1 (proj2 (Hex_constructor_strict 1 2 3))). lia.
  - apply (proj2 (proj2 (Hex_constructor_strict 1 2 (- 3)))). lia.
Defined.

Lemma Hex_constructor_candidate (a b : Z) :
  Hex_constructor a b (- a - b) = Ok (candidate a b).
Proof.
  unfold Hex_constructor, candidate.
  destruct (decide ((a + b + (- a - b))%Z <> 0%Z)) as [Hne | _]; [lia | reflexivity].
Qed.

(** *** The rectangle sweep *)

Section Sweep.

Variables (hexSize : R) (hexOrientation : Orientation) (gridCenter : Point).
Variables (width height : R).

Local Abbreviation kept :=
  (ScriptNotions.kept hexSize hexOrientation gridCenter width height).

Lemma sweep_body_spec (a b : Z) (m : gmap string Hex) :
  keyed m ->
  exists m' : gmap string Hex,
    sweep_body hexSize hexOrientation gridCenter width height a b m = Ok m' /\
    keyed m' /\
    forall h : Hex,
      m' !! id h = Some h <-> m !! id h = Some h \/ (h = candidate a b /\ kept h).
Proof.
  intros Hm. unfold sweep_body. cbv zeta.
  rewrite Hex_constructor_candidate. cbn [mbind result_bind].
  change (within_bounds _ hexSize width height) with (kept (candidate a b)).
  destruct (decide (kept (candidate a b))) as [Hk | Hk].
  - eexists. split; [reflexivity |]. split.
    + intros k h. rewrite lookup_insert. case_decide as Hid.
      * intros [= <-]. symmetry. exact Hid.
      * apply Hm.
    + intros h. rewrite lookup_insert. case_decide as Hid.
      * apply id_inj in Hid. subst h. split; [auto | reflexivity].
      * split; [auto |]. intros [H | [-> _]]; [exact H | contradiction].
  - exists m. split; [reflexivity |]. split; [exact Hm |].
    intros h. split; [auto |]. intros [H | [-> Hk']]; [exact H | contradiction].
Qed.

Lemma inner_loop_spec (a : Z) (bs : list Z) (m : gmap string Hex) :
  keyed m ->
  exists m' : gmap string Hex,
    for_each bs (sweep_body hexSize hexOrientation gridCenter width height a) m = Ok m' /\
    keyed m' /\
    forall h : Hex,
      m' !! id h = Some h <->
      m !! id h = Some h \/ (exists b : Z, b ∈ bs /\ h = candidate a b /\ kept h).
Proof.
  revert m. induction bs as [|b bs IH]; intros m Hm.
  - exists m. split; [reflexivity |]. split; [exact Hm |].
    intros h. split; [auto |]. intros [H | (b & Hb & _)]; [exact H |].
    now apply elem_of_nil in Hb.
  - destruct (sweep_body_spec a b m Hm) as (m1 & E1 & Hm1 & L1).
    destruct (IH m1 Hm1) as (m' & E' & Hm' & L').
    exists m'. split; [| split; [exact Hm' |]].
    + cbn [for_each]. rewrite E1. exact E'.
    + intros h. rewrite L', L1. split.
      * intros [[H | [-> Hk]] | (b' & Hb' & Hh)]; [auto | right | right].
        -- exists b. split; [apply list_elem_of_here | auto].
        -- exists b'. split; [now apply list_elem_of_further | exact Hh].
      * intros [H | (b' & Hb' & -> & Hk)]; [auto |].
        apply elem_of_cons in Hb' as [-> | Hb']; [auto |].
        right. exists b'. auto.
Qed.

Lemma sweep_spec (qs bs : list Z) (m : gmap string Hex) :
  keyed m ->
  exists m' : gmap string Hex,
    for_each qs
      (fun a m0 =>
         for_each bs (sweep_body hexSize hexOrientation gridCenter width height a) m0)
      m = Ok m' /\
    keyed m' /\
    forall h : Hex,
      m' !! id h = Some h <->
      m !! id h = Some h \/
      (exists a b : Z, a ∈ qs /\ b ∈ bs /\ h = candidate a b /\ kept h).
Proof.
  revert m. induction qs as [|a qs IH]; intros m Hm.
  - exists m. split; [reflexivity |]. split; [exact Hm |].
    intros h. split; [auto |]. intros [H | (a & b & Ha & _)]; [exact H |].
    now apply elem_of_nil in Ha.
  - destruct (inner_loop_spec a bs m Hm) as (m1 & E1 & Hm1 & L1).
    destruct (IH m1 Hm1) as (m' & E' & Hm' & L').
    exists m'. split; [| split; [exact Hm' |]].
    + cbn [for_each]. rewrite E1. exact E'.
    + intros h. rewrite L', L1. split.
      * intros [[H | (b & Hb & Hh)] | (a' & b' & Ha' & Hh)]; [auto | right | right].
        -- exists a, b. split; [apply list_elem_of_here | auto].
        -- exists a', b'. split; [now apply list_elem_of_further | exact Hh].
      * intros [H | (a' & b' & Ha' & Hb' & Hh)]; [auto |].
        apply elem_of_cons in Ha' as [-> | Ha']; [left; right; eauto |].
        right. exists a', b'. auto.
Qed.

End Sweep.

Lemma keyed_empty : keyed ∅.
Proof. intros k h H. rewrite lookup_empty in H. discriminate. Qed.

(** [generateGrid] returns, and its map holds the candidates of the sweep
    that pass the test, each under its own identifier.  The cell size is not
    0: the bounds of the sweep are quotients by it. *)
Lemma generateGrid_spec (width height : R) (grid : HexGrid) :
  hexSize grid <> 0%R ->
  exists grid' : HexGrid,
    generateGrid width height grid = Ok grid' /\
    hexSize grid' = hexSize grid /\
    hexOrientation grid' = hexOrientation grid /\
    gridCenter grid' = mkPoint (width / 2) (height / 2) /\
    keyed (hexes grid') /\
    forall h : Hex,
      hexes grid' !! id h = Some h <->
      exists a b : Z,
        let '(qMax, rMax) := sweep_bounds (hexSize grid) (hexOrientation grid) width height in
        (- qMax <= a <= qMax)%Z /\ (- rMax <= b <= rMax)%Z /\
        h = candidate a b /\
        within_bounds
          (toPixel h (hexOrientation grid) (hexSize grid) (mkPoint (width / 2) (height / 2)))
          (hexSize grid) width height.
Proof.
  intros _. unfold generateGrid.
  destruct (sweep_bounds (hexSize grid) (hexOrientation grid) width height)
    as [qMax rMax].
  cbv zeta. unfold sweep.
  destruct (sweep_spec (hexSize grid) (hexOrientation grid)
              (mkPoint (width / 2) (height / 2)) width height
              (Zrange (- qMax) qMax) (Zrange (- rMax) rMax) ∅ keyed_empty)
    as (m' & -> & Hm' & L).
  eexists. split; [reflexivity |]. cbn [hexSize hexOrientation gridCenter hexes].
  repeat split; try exact Hm'.
  - intros H. apply L in H as [H | (a & b & Ha & Hb & Hh)].
    + rewrite lookup_empty in H. discriminate.
    + apply Zrange_elem_of in Ha, Hb. exists a, b. tauto.
  - intros (a & b & Ha & Hb & Hh). apply L. right.
    exists a, b. rewrite !Zrange_elem_of. tauto.
Qed.

(** C10: in [generateGrid], for a cell size other than 0, a candidate of
    the swept range is in the grid afterwards exactly when its pixel centre
    lies strictly inside the window widened by two cell sizes on each
    side. *)
Theorem generateGrid_keeps (width height : R) (grid : HexGrid) (a b : Z) :
  hexSize grid <> 0%R ->
  (- (sweep_bounds (hexSize grid) (hexOrientation grid) width height).1 <= a
   <= (sweep_bounds (hexSize grid) (hexOrientation grid) width height).1)%Z ->
  (- (sweep_bounds (hexSize grid) (hexOrientation grid) width height).2 <= b
   <= (sweep_bounds (hexSize grid) (hexOrientation grid) width height).2)%Z ->
  exists grid' : HexGrid,
    generateGrid width height grid = Ok grid' /\
    let pixel := toPixel (candidate a b) (hexOrientation grid) (hexSize grid)
                         (mkPoint (width / 2) (height / 2)) in
    let inside :=
      (- 2 * hexSize grid < x pixel < width + 2 * hexSize grid /\
       - 2 * hexSize grid < y pixel < height + 2 * hexSize grid)%R in
    (hexes grid' !! id (candidate a b) = Some (candidate a b) <-> inside) /\
    (is_Some (hexes grid' !! id (candidate a b)) <-> inside).
Proof.
  intros Hsize Ha Hb.
  destruct (generateGrid_spec width height grid Hsize)
    as (grid' & E & _ & _ & _ & Hk & L).
  exists grid'. split; [exact E |]. cbv zeta.
  destruct (sweep_bounds (hexSize grid) (hexOrientation grid) width height)
    as [qMax rMax]. cbn [fst snd] in Ha, Hb.
  assert (Hiff : hexes grid' !! id (candidate a b) = Some (candidate a b) <->
                 within_bounds
                   (toPixel (candidate a b) (hexOrientation grid) (hexSize grid)
                      (mkPoint (width / 2) (height / 2)))
                   (hexSize grid) width height).
  { rewrite L. split.
    - intros (a' & b' & _ & _ & _ & Hw). exact Hw.
    - intros Hw. exists a, b. auto. }
  assert (Hin : forall p : Point,
             within_bounds p (hexSize grid) width height <->
             (- 2 * hexSize grid < x p < width + 2 * hexSize grid /\
              - 2 * hexSize grid < y p < height + 2 * hexSize grid)%R).
  { intros p. unfold within_bounds. split; intros H; repeat split; lra. }
  split.
  - rewrite Hiff. apply Hin.
  - rewrite <- Hin, <- Hiff. split; [| eauto].
    intros [h Hh]. pose proof (Hk _ _ Hh) as Hid. apply id_inj in Hid.
    subst h. exact Hh.
Qed.

Lemma window_sweep_bounds : sweep_bounds 50 flat_top 800 600 = (12%Z, 8%Z).
Proof.
  pose proof SQRT3_bounds as HS. unfold sweep_bounds. cbv zeta.
  change (sqrt 3) with SQRT3.
  rewrite (Math_ceil_spec (800 / (50 * 1.5)) 11) by lra.
  rewrite (Math_ceil_spec (600 / (50 * SQRT3)) 7); [reflexivity |].
  split.
  - apply div_lower_strict; lra.
  - apply div_upper; lra.
Qed.

Lemma generateGrid_keeps_witness :
  exists grid' : HexGrid,
    generateGrid 800 600 (HexGrid_constructor 50 flat_top) = Ok grid' /\
    hexes grid' !! "0,0,0" = Some (mkHex 0 0 0).
Proof.
  assert (Hb : sweep_bounds (hexSize (HexGrid_constructor 50 flat_top))
                 (hexOrientation (HexGrid_constructor 50 flat_top)) 800 600
               = (12%Z, 8%Z)) by exact window_sweep_bounds.
  destruct (generateGrid_keeps 800 600 (HexGrid_constructor 50 flat_top) 0 0)
    as (grid' & E & Hiff & _).
  - cbn [HexGrid_constructor hexSize]. lra.
  - rewrite Hb. cbn [fst]. lia.
  - rewrite Hb. cbn [snd]. lia.
  - exists grid'. split; [exact E |].
    change "0,0,0" with (id (candidate 0 0)).
    change (mkHex 0 0 0) with (candidate 0 0).
    apply Hiff. unfold toPixel. cbn [HexGrid_constructor hexOrientation hexSize
      candidate q r x y]. lra.
Defined.

(** *** The renderer *)

Lemma HEX_SIZE_nonzero : HEX_SIZE <> 0%R.
Proof. unfold HEX_SIZE. lra. Qed.

Lemma truthy_id (C : Hex) : truthy (Some (id C)) = Some (id C).
Proof.
  unfold truthy. destruct (decide (id C = "")) as [He | _]; [| reflexivity].
  now apply id_nonempty in He.
Qed.

Lemma drawGrid_hexGrid (this : GameRenderer) : hexGrid (drawGrid this) = hexGrid this.
Proof.
  unfold drawGrid. cbn [selectedHexId hexGrid].
  destruct (truthy (selectedHexId this)) as [i|]; [| reflexivity].
  destruct (hexes (hexGrid this) !! i); reflexivity.
Qed.

(** [drawGrid] on a grid whose keys name their hexes. *)
Lemma drawGrid_spec (this : GameRenderer) :
  keyed (hexes (hexGrid this)) -> selection_named this ->
  (forall C : Hex,
      selectedHexId this = Some (id C) ->
      hexes (hexGrid this) !! id C = None -> selectedHexId (drawGrid this) = None) /\
  (forall i : string,
      selectedHexId (drawGrid this) = Some i ->
      selectedHexId this = Some i /\
      exists C : Hex, i = id C /\ hexes (hexGrid this) !! i = Some C).
Proof.
  intros Hk [Hnone | [C HC]]; unfold drawGrid; cbn [selectedHexId hexGrid].
  - rewrite Hnone. cbn [truthy selectedHexId hexGrid].
    split; intros; discriminate.
  - rewrite HC, truthy_id.
    destruct (hexes (hexGrid this) !! id C) as [sel|] eqn:Hsel;
      cbn [drawHighlight selectedHexId hexGrid].
    + pose proof (Hk _ _ Hsel) as Hid. apply id_inj in Hid. subst sel. split.
      * intros C' [= HC'] Hn. apply id_inj in HC'. subst C'. congruence.
      * intros i [= <-]. split; [reflexivity |]. exists C. auto.
    + split; [reflexivity | intros; discriminate].
Qed.

Lemma resize_spec (innerWidth innerHeight : R) (this : GameRenderer) :
  hexSize (hexGrid this) <> 0%R -> selection_named this ->
  exists this' : GameRenderer,
    resize innerWidth innerHeight this = Ok this' /\
    generateGrid innerWidth innerHeight (hexGrid this) = Ok (hexGrid this') /\
    (forall C : Hex,
        selectedHexId this = Some (id C) ->
        hexes (hexGrid this') !! id C = None -> selectedHexId this' = None) /\
    (forall i : string,
        selectedHexId this' = Some i ->
        selectedHexId this = Some i /\
        exists C : Hex, i = id C /\ hexes (hexGrid this') !! i = Some C).
Proof.
  intros Hsize Hsel. unfold resize.
  destruct (generateGrid_spec innerWidth innerHeight (hexGrid this) Hsize)
    as (grid' & -> & _ & _ & _ & Hk & _).
  cbn [mbind result_bind]. eexists. split; [reflexivity |].
  set (this0 := {| hexGrid := grid'; highlightGraphic := highlightGraphic this;
                   selectedHexId := selectedHexId this |}).
  destruct (drawGrid_spec this0 Hk Hsel) as (H1 & H2).
  rewrite drawGrid_hexGrid. split; [reflexivity |]. split; [exact H1 | exact H2].
Qed.

(** What holds of every state the page reaches: the selection is the
    identifier of a hex, and the grid keeps the configured cell size. *)
Lemma reachable_invariant (this : GameRenderer) :
  reachable this ->
  selection_named this /\ hexSize (hexGrid this) = HEX_SIZE.
Proof.
  induction 1 as [W H grid E | hex this _ [IH1 IH2] | W H this this' _ [IH1 IH2] E].
  - split; [left; reflexivity |].
    unfold GameRenderer_constructor. rewrite drawGrid_hexGrid. cbn [hexGrid].
    destruct (generateGrid_spec W H (HexGrid_constructor HEX_SIZE HEX_ORIENTATION)
                HEX_SIZE_nonzero) as (g & E' & Hs & _).
    rewrite E in E'. injection E' as <-. exact Hs.
  - destruct hex as [hex|]; [| tauto]. split; [| exact IH2].
    right. exists hex. reflexivity.
  - assert (Hsize : hexSize (hexGrid this) <> 0%R)
      by (rewrite IH2; exact HEX_SIZE_nonzero).
    destruct (resize_spec W H this Hsize IH1) as (this'' & E' & Eg & _ & H2).
    rewrite E in E'. injection E' as <-. split.
    + destruct (selectedHexId this') as [i|] eqn:Hi; [| now left].
      destruct (H2 i eq_refl) as (_ & C & -> & _). right. eauto.
    + destruct (generateGrid_spec W H (hexGrid this) Hsize) as (g & Eg' & Hs & _).
      rewrite Eg in Eg'. injection Eg' as <-. rewrite Hs. exact IH2.
Qed.


Lemma window_selected_reachable :
  reachable window_selected /\ selectedHexId window_selected = Some "6,-3,-3".
Proof.
  split; [| reflexivity].
  unfold window_selected. apply renderer_click. unfold window_grid.
  destruct (generateGrid_spec 800 600 (HexGrid_constructor HEX_SIZE HEX_ORIENTATION)
              HEX_SIZE_nonzero) as (grid & E & _).
  rewrite E. exact (renderer_new _ _ _ E).
Qed.



End ScriptFacts.

(** ** More on the pointy-top variant: coordinates and rounding *)

Module CoordinateFacts.

Import Radial RoundingRules RadialNotions RadialFacts.
Local Open Scope R_scope.

Lemma hex_round_integers (a b c : Z) :
  (a + b + c)%Z = 0%Z ->
  hex_round (mkHex (IZR a) (IZR b) (IZR c)) = mkHex (IZR a) (IZR b) (IZR c).
Proof.
  intros Hsum.
  rewrite (hex_round_third_branch _ a b c); cbn [q r s]; try lra;
    try (split_abs; lra).
  f_equal. rewrite <- opp_IZR, <- minus_IZR. f_equal. lia.
Qed.

Lemma hex_round_shape (h : Hex) :
  exists a b c : Z,
    (a + b + c)%Z = 0%Z /\ hex_round h = mkHex (IZR a) (IZR b) (IZR c).
Proof.
  rewrite hex_round_unfold. cbv zeta.
  set (a := Math_round (q h)). set (b := Math_round (r h)).
  set (c := Math_round (s h)).
  by_cases.
  - exists (- b - c)%Z, b, c. split; [lia |]. rewrite minus_IZR, opp_IZR. reflexivity.
  - exists a, (- a - c)%Z, c. split; [lia |]. rewrite minus_IZR, opp_IZR. reflexivity.
  - exists a, b, (- a - b)%Z. split; [lia |]. rewrite minus_IZR, opp_IZR. reflexivity.
Qed.

(** X1: [hex_round] leaves every zero-sum integer coordinate as it is, and
    rounding twice is rounding once. *)
Theorem hex_round_idempotent :
  (forall a b c : Z,
      (a + b + c)%Z = 0%Z ->
      hex_round (mkHex (IZR a) (IZR b) (IZR c)) = mkHex (IZR a) (IZR b) (IZR c)) /\
  (forall h : Hex, hex_round (hex_round h) = hex_round h).
Proof.
  split; [exact hex_round_integers |].
  intros h. destruct (hex_round_shape h) as (a & b & c & Hsum & ->).
  now apply hex_round_integers.
Qed.

Lemma hex_round_idempotent_witness :
  hex_round (mkHex (IZR 3) (IZR (- 5)) (IZR 2)) = mkHex (IZR 3) (IZR (- 5)) (IZR 2).
Proof.
  apply (proj1 hex_round_idempotent). reflexivity.
Defined.

(** X2: on a zero-sum fractional triple, [hex_round] moves no component by
    more than 1, and its result is a zero-sum integer triple. *)
Theorem hex_round_close (h : Hex) :
  zero_sum h ->
  Rabs (q (hex_round h) - q h) <= 1 /\
  Rabs (r (hex_round h) - r h) <= 1 /\
  Rabs (s (hex_round h) - s h) <= 1 /\
  zero_sum (hex_round h).
Proof.
  unfold zero_sum. intros Hsum. rewrite hex_round_unfold. cbv zeta.
  pose proof (Math_round_bounds (q h)) as Hq.
  pose proof (Math_round_bounds (r h)) as Hr.
  pose proof (Math_round_bounds (s h)) as Hs.
  by_cases; cbn [q r s]; repeat split; try lra; split_abs; lra.
Qed.

Lemma hex_round_close_witness :
  Rabs (q (hex_round (mkHex 0.4 0.1 (- 0.5))) - 0.4) <= 1.
Proof.
  assert (H : zero_sum (mkHex 0.4 0.1 (- 0.5))) by (unfold zero_sum; cbn [q r s]; lra).
  exact (proj1 (hex_round_close (mkHex 0.4 0.1 (- 0.5)) H)).
Defined.

(** X3: what the forgiving constructor guarantees on any arguments: the
    sum of the components of the result rounds to 0, that is, lies in
    [-1/2, 1/2); it is 0 as soon as an argument is missing or the rounded sum
    of the arguments is not 0; and q and r, when given, are never the
    components that change. *)
Theorem Hex_constructor_guarantee (a b c : option R) :
  let h := Hex_constructor a b c in
  - / 2 <= q h + r h + s h < / 2 /\
  (a = None \/ b = None \/ c = None -> zero_sum h) /\
  (forall a' b' c' : R,
      a = Some a' -> b = Some b' -> c = Some c' ->
      q h = a' /\ r h = b' /\
      (Math_round (a' + b' + c') <> 0%Z -> s h = - a' - b') /\
      (Math_round (a' + b' + c') = 0%Z -> s h = c')).
Proof.
  cbv zeta. unfold zero_sum.
  destruct a as [a'|], b as [b'|], c as [c'|]; cbn [Hex_constructor];
    try (split; [cbn [q r s]; lra |];
         split; [intros _; cbn [q r s]; lra | intros; discriminate]).
  pose proof (Math_round_bounds (a' + b' + c')) as Hb.
  destruct (decide (Math_round (a' + b' + c') <> 0%Z)) as [Hne | He]; cbn [q r s].
  - split; [lra |]. split; [intros [H | [H | H]]; discriminate |].
    intros ? ? ? [= <-] [= <-] [= <-].
    split; [reflexivity |]. split; [reflexivity |].
    split; [reflexivity | intros H0; contradiction].
  - assert (He' : Math_round (a' + b' + c') = 0%Z)
      by (destruct (Z.eq_dec (Math_round (a' + b' + c')) 0%Z); tauto).
    rewrite He' in Hb. cbn in Hb.
    split; [lra |]. split; [intros [H | [H | H]]; discriminate |].
    intros ? ? ? [= <-] [= <-] [= <-].
    split; [reflexivity |]. split; [reflexivity |].
    split; [intros H0; contradiction | reflexivity].
Qed.

Lemma Hex_constructor_guarantee_witness :
  zero_sum (Hex_constructor (Some 2) None (Some 3)) /\
  s (Hex_constructor (Some 0.2) (Some 0.1) (Some 0)) = 0.
Proof.
  split.
  - apply (proj1 (proj2 (Hex_constructor_guarantee (Some 2) None (Some 3)))). auto.
  - apply (proj2 (proj2 (Hex_constructor_guarantee (Some 0.2) (Some 0.1) (Some 0)))
             0.2 0.1 0 eq_refl eq_refl eq_refl).
    apply Math_round_spec. lra.
Defined.

(** X4: a zero-sum hex is rebuilt from its axial coordinates by the
    constructor called without s. *)
Theorem axial_round_trip (h : Hex) :
  zero_sum h ->
  Hex_constructor (Some (axial h).1) (Some (axial h).2) None = h /\
  axial (Hex_constructor (Some (axial h).1) (Some (axial h).2) None) = axial h.
Proof.
  unfold zero_sum. intros Hsum. destruct h as [a b c]. cbn [q r s] in Hsum.
  unfold axial. cbn [fst snd q r Hex_constructor]. split; [| reflexivity].
  f_equal. lra.
Qed.

Lemma axial_round_trip_witness :
  Hex_constructor (Some (axial (mkHex 2 (- 3) 1)).1)
                  (Some (axial (mkHex 2 (- 3) 1)).2) None = mkHex 2 (- 3) 1.
Proof.
  apply (axial_round_trip (mkHex 2 (- 3) 1)). unfold zero_sum. cbn [q r s]. lra.
Defined.



End CoordinateFacts.

(** ** More on the pointy-top variant: conversions and the hex a click finds *)

Module ConversionFacts.

Import Radial RoundingRules RadialNotions RadialFacts ClickFacts.
Local Open Scope R_scope.



Lemma hex_round_diagonal (a : R) : near_diagonal (hex_round (mkHex a a (- a - a))).
Proof.
  rewrite hex_round_unfold. cbv zeta. unfold error_q, error_r, error_s, near_diagonal.
  cbn [q r s].
  pose proof (Math_round_bounds a) as Ha.
  pose proof (Math_round_bounds (- a - a)) as Hs.
  set (rx := Math_round a) in *. set (rz := Math_round (- a - a)) in *.
  destruct (decide (_ /\ _)) as [[Hgt _] | _]; [exfalso; lra |].
  destruct (decide (_ > _)) as [_ | _]; cbn [q r s]; [| right; left; lra].
  set (k := (2 * rx + rz)%Z).
  assert (Hk : IZR k = 2 * IZR rx + IZR rz)
    by (subst k; rewrite plus_IZR, mult_IZR; reflexivity).
  assert (Hlo : (- 2 < k)%Z) by (apply lt_IZR; rewrite Hk; lra).
  assert (Hhi : (k < 2)%Z) by (apply lt_IZR; rewrite Hk; lra).
  assert (Hcases : (k = - 1 \/ k = 0 \/ k = 1)%Z) by lia.
  destruct Hcases as [E | [E | E]]; rewrite E in Hk; cbn in Hk;
    [left | right; left | right; right]; lra.
Qed.

Lemma clicked_near_diagonal (point center : Point) (size : R) :
  near_diagonal (pixel_to_hex point (current_layout size center)).
Proof. rewrite pixel_to_hex_current. cbv zeta. apply hex_round_diagonal. Qed.

(** X7: for a cell size other than 0, whatever the point and the origin,
    [pixel_to_hex] under the layout of [onHexClick] returns a zero-sum integer
    hex whose q and r differ by at most 1. *)
Theorem pixel_to_hex_near_diagonal (point center : Point) (size : R) :
  size <> 0 ->
  near_diagonal (pixel_to_hex point (current_layout size center)) /\
  zero_sum (pixel_to_hex point (current_layout size center)) /\
  integral (pixel_to_hex point (current_layout size center)).
Proof.
  intros _. split; [apply clicked_near_diagonal |].
  rewrite pixel_to_hex_current. cbv zeta.
  destruct (CoordinateFacts.hex_round_shape
              (mkHex (SQRT3 * ((x point - x center) / size)
                      + SQRT3 / 2 * ((y point - y center) / size))
                     (SQRT3 * ((x point - x center) / size)
                      + SQRT3 / 2 * ((y point - y center) / size))
                     (- (SQRT3 * ((x point - x center) / size)
                         + SQRT3 / 2 * ((y point - y center) / size))
                      - (SQRT3 * ((x point - x center) / size)
                         + SQRT3 / 2 * ((y point - y center) / size)))))
    as (a & b & c & Hsum & ->).
  split.
  - unfold zero_sum. cbn [q r s]. rewrite <- !plus_IZR, Hsum. reflexivity.
  - exists a, b, c. reflexivity.
Qed.

Lemma pixel_to_hex_near_diagonal_witness :
  near_diagonal (pixel_to_hex (mkPoint 123 456) (current_layout 50 (mkPoint 400 300))).
Proof.
  apply (pixel_to_hex_near_diagonal (mkPoint 123 456) (mkPoint 400 300) 50). lra.
Defined.

Lemma onHexClick_selection_cases (p : Point) (st : State) :
  selectedHex (onHexClick p st) = None \/
  selectedHex (onHexClick p st) = selectedHex st \/
  exists o : nat * Hex,
    selectedHex (onHexClick p st) = Some o /\ o.2 = clicked_hex p st.
Proof.
  unfold onHexClick. fold (clicked_hex p st).
  destruct (find_hex (clicked_hex p st) (gameHexes st)) as [o|] eqn:Hfind.
  - apply find_hex_Some in Hfind as [_ Ho].
    destruct (selectedHexGraphics st); cbn [hexGraphicsMap];
      destruct (_ !! o.1); cbn [selectedHex]; eauto.
  - destruct (selectedHexGraphics st); cbn [selectedHex]; auto.
Qed.

(** X8: in every state the page reaches, the selected hex has q and r
    differing by at most 1: the other hexes of the grid cannot be selected by
    any click. *)
Theorem selection_near_diagonal (st : State) (o : nat * Hex) :
  reachable st -> selectedHex st = Some o -> near_diagonal o.2.
Proof.
  intros Hreach. revert o.
  induction Hreach as [W H | W H st _ IH | p st _ IH]; intros o Hsel.
  - destruct (updateGridDisplay_size W H initial_state) as (_ & _ & Hs & _).
    rewrite Hs in Hsel. discriminate.
  - destruct (updateGridDisplay_size W H st) as (_ & _ & Hs & _).
    rewrite Hs in Hsel. now apply IH.
  - destruct (onHexClick_selection_cases p st) as [Hn | [Hsame | (o' & Ho' & Hc)]].
    + rewrite Hn in Hsel. discriminate.
    + rewrite Hsame in Hsel. now apply IH.
    + rewrite Ho' in Hsel. injection Hsel as <-. rewrite Hc.
      unfold clicked_hex. apply clicked_near_diagonal.
Qed.

Lemma selection_near_diagonal_witness :
  exists n : nat,
    selectedHex session_selected = Some (n, mkHex 0 0 0) /\
    near_diagonal (mkHex 0 0 0).
Proof.
  destruct session_selected_facts as (Hreach & _ & _ & _ & n & Hsel & _).
  exists n. split; [exact Hsel |].
  exact (selection_near_diagonal session_selected (n, mkHex 0 0 0) Hreach Hsel).
Defined.

(** X9: the search of [onHexClick] returns the first object of the list
    whose three fields equal those of the hex looked for, and nothing exactly
    when no object has these fields. *)
Theorem find_hex_first_match (c : Hex) (l : list (nat * Hex)) :
  (find_hex c l = None <-> c ∉ l.*2) /\
  (forall o : nat * Hex,
      find_hex c l = Some o <->
      exists l1 l2 : list (nat * Hex),
        l = l1 ++ o :: l2 /\ o.2 = c /\ c ∉ l1.*2).
Proof.
  split; [apply find_hex_None |].
  induction l as [|[n h] l IH]; intros o.
  - split; [discriminate |]. intros (l1 & l2 & Hl & _).
    destruct l1; discriminate.
  - unfold find_hex in *. cbn [find snd].
    destruct (equals h c) eqn:E.
    + apply equals_true in E. subst h. split.
      * intros [= <-]. exists [], l. split; [reflexivity |].
        split; [reflexivity | apply not_elem_of_nil].
      * intros (l1 & l2 & Hl & Ho & Hnot). destruct l1 as [|o1 l1].
        -- injection Hl as <- _. reflexivity.
        -- injection Hl as <- _. exfalso. apply Hnot. cbn. apply list_elem_of_here.
    + assert (Hne : h <> c).
      { intros ->. assert (equals c c = true) by now apply equals_true. congruence. }
      rewrite IH. split.
      * intros (l1 & l2 & -> & Ho & Hnot). exists ((n, h) :: l1), l2.
        split; [reflexivity |]. split; [exact Ho |].
        cbn. rewrite not_elem_of_cons. auto.
      * intros (l1 & l2 & Hl & Ho & Hnot). destruct l1 as [|o1 l1].
        -- injection Hl as <- _. cbn in Ho. contradiction.
        -- injection Hl as <- ->. exists l1, l2. split; [reflexivity |].
           split; [exact Ho |]. cbn in Hnot. rewrite not_elem_of_cons in Hnot. tauto.
Qed.

End ConversionFacts.

(** ** More on the pointy-top variant: the grid on screen and its highlight *)

Module DisplayFacts.

Import Radial RoundingRules RadialNotions RadialFacts ClickFacts.
Local Open Scope R_scope.

(** X10: for every window of positive width and height the two-pass fit
    of [updateGridDisplay] ends on the target radius: [currentMaxRadius] is 5,
    the grid is the disk of radius 5 with its 91 hexes, and the cell size is
    0.9 times the smaller of width / (11 sqrt 3) and height / 22. *)
Theorem updateGridDisplay_target_radius (W H : R) (st : State) :
  0 < W -> 0 < H ->
  currentMaxRadius (updateGridDisplay W H st) = Some 5%Z /\
  (gameHexes (updateGridDisplay W H st)).*2 = grid_loop 5 /\
  length (gameHexes (updateGridDisplay W H st)) = 91%nat /\
  currentHexSize (updateGridDisplay W H st)
  = Rmin (W / 11 / SQRT3) (H / 11 / 2) * 0.9 /\
  0 < currentHexSize (updateGridDisplay W H st).
Proof.
  intros HW HH.
  destruct (updateGridDisplay_radius W H st HW HH) as [Hrad Hgrid].
  destruct (updateGridDisplay_size W H st) as (Hsize & _).
  split; [exact Hrad |]. split; [exact Hgrid |]. split.
  - rewrite <- (length_fmap snd), Hgrid.
    pose proof (DiskFacts.grid_loop_length 5) as Hlen. lia.
  - rewrite Hsize. split; [reflexivity |]. now apply fitted_size_pos.
Qed.

Lemma updateGridDisplay_target_radius_witness :
  length (gameHexes (updateGridDisplay 1920 1080 initial_state)) = 91%nat.
Proof.
  apply (updateGridDisplay_target_radius 1920 1080 initial_state); lra.
Defined.

Lemma updateGridDisplay_objects (W H : R) (st : State) :
  exists hexes : list Hex,
    gameHexes (updateGridDisplay W H st)
    = zip (seq (next_object st) (length hexes)) hexes /\
    hexGraphicsMap (updateGridDisplay W H st)
    = list_to_map ((fun o : nat * Hex => (o.1, Default_style))
                     <$> gameHexes (updateGridDisplay W H st)) /\
    next_object (updateGridDisplay W H st) = (next_object st + length hexes)%nat.
Proof.
  unfold updateGridDisplay. cbn [gameHexes hexGraphicsMap next_object].
  eexists. repeat split.
Qed.

Lemma updateGridDisplay_lookup (W H : R) (st : State) (k : nat) (sty : Style) :
  hexGraphicsMap (updateGridDisplay W H st) !! k = Some sty <->
  sty = Default_style /\ k ∈ (gameHexes (updateGridDisplay W H st)).*1.
Proof.
  destruct (updateGridDisplay_objects W H st) as (hexes & Hobj & -> & _).
  assert (Hkeys : ((fun o : nat * Hex => (o.1, Default_style))
                     <$> gameHexes (updateGridDisplay W H st)).*1
                  = (gameHexes (updateGridDisplay W H st)).*1).
  { rewrite <- list_fmap_compose. apply list_fmap_ext. intros _ o _. reflexivity. }
  assert (Hnodup : NoDup (gameHexes (updateGridDisplay W H st)).*1).
  { rewrite Hobj, fst_zip by (rewrite length_seq; lia). apply NoDup_seq. }
  rewrite <- elem_of_list_to_map by (rewrite Hkeys; exact Hnodup).
  rewrite list_elem_of_fmap. split.
  - intros (o & [= -> ->] & Ho). split; [reflexivity |].
    apply list_elem_of_fmap. exists o. auto.
  - intros [-> (o & -> & Ho)%list_elem_of_fmap]. exists o. auto.
Qed.

(** X11: a rebuild numbers the new hex objects afresh and without
    repetition, gives each of them a graphics drawn with the default style and
    no graphics to anything else, so that nothing is highlighted afterwards,
    while the selection variables keep their values. *)
Theorem updateGridDisplay_fresh_graphics (W H : R) (st : State) :
  NoDup (gameHexes (updateGridDisplay W H st)).*1 /\
  (forall o : nat * Hex,
      o ∈ gameHexes (updateGridDisplay W H st) ->
      (next_object st <= o.1 < next_object (updateGridDisplay W H st))%nat /\
      hexGraphicsMap (updateGridDisplay W H st) !! o.1 = Some Default_style) /\
  (forall (k : nat) (sty : Style),
      hexGraphicsMap (updateGridDisplay W H st) !! k = Some sty ->
      sty = Default_style /\ k ∈ (gameHexes (updateGridDisplay W H st)).*1) /\
  (forall k : nat, ~ highlighted (updateGridDisplay W H st) k) /\
  selectedHex (updateGridDisplay W H st) = selectedHex st /\
  selectedHexGraphics (updateGridDisplay W H st) = selectedHexGraphics st.
Proof.
  destruct (updateGridDisplay_objects W H st) as (hexes & Hobj & _ & Hnext).
  assert (Hfst : (gameHexes (updateGridDisplay W H st)).*1
                 = seq (next_object st) (length hexes))
    by (rewrite Hobj; apply fst_zip; rewrite length_seq; lia).
  split; [rewrite Hfst; apply NoDup_seq |]. split; [| split; [| split]].
  - intros o Ho.
    assert (Hin : o.1 ∈ (gameHexes (updateGridDisplay W H st)).*1)
      by (apply list_elem_of_fmap; exists o; auto).
    split.
    + rewrite Hfst in Hin. apply elem_of_seq in Hin. lia.
    + apply updateGridDisplay_lookup. auto.
  - intros k sty. apply updateGridDisplay_lookup.
  - intros k Hk. apply updateGridDisplay_lookup in Hk as [Hk _]. discriminate.
  - destruct (updateGridDisplay_size W H st) as (_ & _ & -> & ->). auto.
Qed.

Lemma updateGridDisplay_consistent (W H : R) (st : State) :
  match selectedHex st, selectedHexGraphics st with
  | None, None => True
  | Some o, Some g => o.1 = g
  | _, _ => False
  end ->
  display_consistent (updateGridDisplay W H st).
Proof.
  intros Hpair. unfold display_consistent.
  destruct (updateGridDisplay_size W H st) as (_ & _ & -> & ->).
  split; [exact Hpair |]. split.
  - intros k Hk. apply updateGridDisplay_lookup in Hk as [Hk _]. discriminate.
  - intros o Ho. now apply updateGridDisplay_graphics.
Qed.

Lemma onHexClick_consistent (p : Point) (st : State) :
  display_consistent st -> display_consistent (onHexClick p st).
Proof.
  unfold display_consistent, highlighted. intros (Hpair & Hhigh & Hobj).
  assert (Hcases : (selectedHex st = None /\ selectedHexGraphics st = None) \/
                   exists o, selectedHex st = Some o /\ selectedHexGraphics st = Some o.1).
  { revert Hpair.
    destruct (selectedHex st) as [o0|], (selectedHexGraphics st) as [g0|];
      intros Hpair; try contradiction; [right | left; auto].
    exists o0. subst g0. auto. }
  clear Hpair. unfold onHexClick.
  set (st1 := match selectedHexGraphics st with Some _ => _ | None => st end).
  assert (H1 : selectedHex st1 = None /\ selectedHexGraphics st1 = None).
  { subst st1. destruct Hcases as [[Eh Eg] | (o0 & Eh & Eg)]; rewrite Eg; auto. }
  assert (H2 : forall k, hexGraphicsMap st1 !! k <> Some Highlight_style).
  { subst st1. intros k Hk.
    destruct Hcases as [[Eh Eg] | (o0 & Eh & Eg)]; rewrite Eg in Hk.
    - apply Hhigh in Hk. congruence.
    - cbn [hexGraphicsMap] in Hk. rewrite Eh in Hk.
      destruct (hexGraphicsMap st !! o0.1) eqn:Eo.
      + rewrite lookup_insert in Hk. case_decide as Hko; [discriminate |].
        apply Hhigh in Hk. congruence.
      + pose proof (Hhigh k Hk) as Hkg. rewrite Eg in Hkg. injection Hkg as <-.
        congruence. }
  assert (H3 : forall o, o ∈ gameHexes st1 -> is_Some (hexGraphicsMap st1 !! o.1)).
  { subst st1. destruct (selectedHexGraphics st); [| exact Hobj].
    cbn [gameHexes hexGraphicsMap]. intros o Ho%Hobj.
    destruct (selectedHex st) as [o'|]; [| exact Ho].
    destruct (hexGraphicsMap st !! o'.1); [| exact Ho].
    rewrite lookup_insert. case_decide; eauto. }
  clearbody st1. destruct H1 as [H1a H1b].
  destruct (find_hex _ (gameHexes st)) as [o|].
  - destruct (hexGraphicsMap st1 !! o.1).
    + cbn [selectedHex selectedHexGraphics hexGraphicsMap gameHexes].
      split; [reflexivity |]. split.
      * intros k Hk. rewrite lookup_insert in Hk. case_decide as Hko; [congruence |].
        now apply H2 in Hk.
      * intros o' Ho'%H3. rewrite lookup_insert. case_decide; eauto.
    + rewrite H1a, H1b. split; [exact I |]. split; [| exact H3].
      intros k Hk. now apply H2 in Hk.
  - rewrite H1a, H1b. split; [exact I |]. split; [| exact H3].
    intros k Hk. now apply H2 in Hk.
Qed.

Lemma reachable_consistent (st : State) : reachable st -> display_consistent st.
Proof.
  induction 1 as [W H | W H st _ IH | p st _ IH].
  - apply updateGridDisplay_consistent. exact I.
  - apply updateGridDisplay_consistent. apply IH.
  - now apply onHexClick_consistent.
Qed.

(** X12: in every state the page reaches, at most one graphics is drawn
    with the highlight style, that of the selected hex object; and every hex
    object of the grid has its graphics in [hexGraphicsMap]. *)
Theorem reachable_single_highlight (st : State) :
  reachable st ->
  (forall k : nat,
      highlighted st k ->
      selectedHexGraphics st = Some k /\
      exists h : Hex, selectedHex st = Some (k, h)) /\
  (forall k k' : nat, highlighted st k -> highlighted st k' -> k = k') /\
  (forall o : nat * Hex, o ∈ gameHexes st -> is_Some (hexGraphicsMap st !! o.1)).
Proof.
  intros Hreach. destruct (reachable_consistent st Hreach) as (Hpair & Hhigh & Hobj).
  split; [| split; [| exact Hobj]].
  - intros k Hk. pose proof (Hhigh k Hk) as Hg. split; [exact Hg |].
    rewrite Hg in Hpair. destruct (selectedHex st) as [[n h]|]; [| contradiction].
    cbn in Hpair. subst n. eauto.
  - intros k k' Hk Hk'. apply Hhigh in Hk, Hk'. congruence.
Qed.

Lemma onHexClick_found_highlight (p : Point) (st : State) (o : nat * Hex) :
  find_hex (clicked_hex p st) (gameHexes st) = Some o ->
  is_Some (hexGraphicsMap st !! o.1) ->
  highlighted (onHexClick p st) o.1.
Proof.
  unfold clicked_hex, onHexClick, highlighted. intros -> Hsome.
  set (st1 := match selectedHexGraphics st with Some _ => _ | None => st end).
  assert (H1 : is_Some (hexGraphicsMap st1 !! o.1)).
  { subst st1. destruct (selectedHexGraphics st); [| exact Hsome].
    cbn [hexGraphicsMap]. destruct (selectedHex st) as [o'|]; [| exact Hsome].
    destruct (hexGraphicsMap st !! o'.1); [| exact Hsome].
    rewrite lookup_insert. case_decide; eauto. }
  clearbody st1. destruct H1 as [g ->]. cbn [hexGraphicsMap].
  apply lookup_insert_eq.
Qed.

(** X13: in every state the page reaches, a click whose converted hex is
    found in the grid selects the found object and highlights its graphics,
    whatever was selected before; a second click at the same point leaves it
    selected. *)
Theorem onHexClick_selects (clickPoint : Point) (st : State) (o : nat * Hex) :
  reachable st ->
  find_hex (clicked_hex clickPoint st) (gameHexes st) = Some o ->
  selectedHex (onHexClick clickPoint st) = Some o /\
  selectedHexGraphics (onHexClick clickPoint st) = Some o.1 /\
  highlighted (onHexClick clickPoint st) o.1 /\
  selectedHex (onHexClick clickPoint (onHexClick clickPoint st)) = Some o.
Proof.
  intros Hreach Hfind.
  assert (Hstep : forall st0 : State,
             reachable st0 ->
             find_hex (clicked_hex clickPoint st0) (gameHexes st0) = Some o ->
             selectedHex (onHexClick clickPoint st0) = Some o /\
             selectedHexGraphics (onHexClick clickPoint st0) = Some o.1 /\
             highlighted (onHexClick clickPoint st0) o.1).
  { intros st0 Hr Hf.
    destruct (reachable_consistent st0 Hr) as (_ & _ & Hobj).
    pose proof (proj1 (find_hex_Some _ _ _ Hf)) as Hin.
    destruct (onHexClick_found _ _ _ Hf (Hobj o Hin)) as [Hs Hg].
    split; [exact Hs |]. split; [exact Hg |].
    exact (onHexClick_found_highlight _ _ _ Hf (Hobj o Hin)). }
  destruct (Hstep st Hreach Hfind) as (Hs & Hg & Hh).
  split; [exact Hs |]. split; [exact Hg |]. split; [exact Hh |].
  apply Hstep; [now apply reachable_click |].
  unfold clicked_hex.
  destruct (onHexClick_frame clickPoint st) as (-> & -> & ->). exact Hfind.
Qed.

Lemma session_center_found :
  exists n : nat,
    find_hex (clicked_hex (mkPoint 400 300) session_grid) (gameHexes session_grid)
    = Some (n, mkHex 0 0 0).
Proof.
  destruct session_grid_facts as (Hsize & Hcenter & Hgrid & _).
  assert (Hclick : clicked_hex (mkPoint 400 300) session_grid = mkHex 0 0 0).
  { unfold clicked_hex. rewrite Hsize, Hcenter, pixel_to_hex_current.
    cbn [x y]. cbv zeta.
    rewrite (hex_round_third_branch _ 0 0 0); cbn [q r s]; try (split_abs; lra).
    f_equal. lra. }
  assert (Hin : mkHex 0 0 0 ∈ (gameHexes session_grid).*2).
  { rewrite Hgrid. apply DiskFacts.grid_loop_elem_of.
    exists 0%Z, 0%Z, 0%Z. split; [reflexivity | lia]. }
  destruct (find_hex_elem_of _ _ Hin) as (n & Hfind & _).
  exists n. rewrite Hclick. exact Hfind.
Qed.

Lemma onHexClick_selects_witness :
  exists n : nat,
    selectedHex (onHexClick (mkPoint 400 300) session_grid) = Some (n, mkHex 0 0 0) /\
    highlighted (onHexClick (mkPoint 400 300) session_grid) n.
Proof.
  destruct session_center_found as [n Hfind]. exists n.
  destruct (onHexClick_selects (mkPoint 400 300) session_grid (n, mkHex 0 0 0)
              (reachable_init 800 600) Hfind) as (Hs & _ & Hh & _).
  split; [exact Hs | exact Hh].
Defined.

Lemma reachable_single_highlight_witness :
  exists n : nat,
    highlighted session_selected n /\
    selectedHexGraphics session_selected = Some n.
Proof.
  destruct session_center_found as [n Hfind]. exists n.
  assert (Hh : highlighted session_selected n).
  { apply (onHexClick_found_highlight _ _ _ Hfind).
    apply (updateGridDisplay_graphics 800 600 initial_state (n, mkHex 0 0 0)).
    exact (proj1 (find_hex_Some _ _ _ Hfind)). }
  split; [exact Hh |].
  exact (proj1 (proj1 (reachable_single_highlight session_selected
                         (proj1 session_selected_facts)) n Hh)).
Defined.

End DisplayFacts.

(** ** More on the strict variant: pixel centres, vertices and the grid *)

Module GridFacts.

Import Script ScriptNotions ScriptFacts.
Local Open Scope R_scope.

(** X14: for a cell size other than 0 and either orientation, [toPixel]
    sends two different zero-sum hexes to two different pixel centres, and
    the hex (0, 0, 0) to the origin. *)
Theorem toPixel_injective (orientation : Orientation) (size : R) (origin : Point) :
  size <> 0 ->
  (forall h h' : Hex,
      (q h + r h + s h)%Z = 0%Z -> (q h' + r h' + s h')%Z = 0%Z ->
      toPixel h orientation size origin = toPixel h' orientation size origin ->
      h = h') /\
  toPixel (mkHex 0 0 0) orientation size origin = origin.
Proof.
  intros Hsize. pose proof SQRT3_bounds as HS. split.
  - intros [a b c] [a' b' c'] Hsum Hsum'. cbn [q r s] in Hsum, Hsum'.
    unfold toPixel. cbn [q r]. change (sqrt 3) with SQRT3.
    destruct orientation; intros [= Hx Hy].
    + assert (Ha : IZR a = IZR a').
      { assert (E : size * (3 / 2 * IZR a) = size * (3 / 2 * IZR a')) by lra.
        apply Rmult_eq_reg_l in E; [lra | exact Hsize]. }
      assert (Hb : IZR b = IZR b').
      { assert (E : size * (SQRT3 / 2 * IZR a + SQRT3 * IZR b)
                    = size * (SQRT3 / 2 * IZR a' + SQRT3 * IZR b')) by lra.
        apply Rmult_eq_reg_l in E; [| exact Hsize]. rewrite Ha in E.
        assert (E' : SQRT3 * IZR b = SQRT3 * IZR b') by lra.
        apply Rmult_eq_reg_l in E'; [exact E' | lra]. }
      apply eq_IZR in Ha, Hb. f_equal; lia.
    + assert (Hb : IZR b = IZR b').
      { assert (E : size * (3 / 2 * IZR b) = size * (3 / 2 * IZR b')) by lra.
        apply Rmult_eq_reg_l in E; [lra | exact Hsize]. }
      assert (Ha : IZR a = IZR a').
      { assert (E : size * (SQRT3 * IZR a + SQRT3 / 2 * IZR b)
                    = size * (SQRT3 * IZR a' + SQRT3 / 2 * IZR b')) by lra.
        apply Rmult_eq_reg_l in E; [| exact Hsize]. rewrite Hb in E.
        assert (E' : SQRT3 * IZR a = SQRT3 * IZR a') by lra.
        apply Rmult_eq_reg_l in E'; [exact E' | lra]. }
      apply eq_IZR in Ha, Hb. f_equal; lia.
  - destruct origin as [ox oy]. unfold toPixel. cbn [q r x y].
    destruct orientation; f_equal; lra.
Qed.

Lemma toPixel_injective_witness :
  toPixel (mkHex 0 0 0) pointy_top 50 (mkPoint 400 300) = mkPoint 400 300.
Proof.
  apply (toPixel_injective pointy_top 50 (mkPoint 400 300)). lra.
Defined.



Lemma candidate_inj (a b a' b' : Z) :
  candidate a b = candidate a' b' -> a = a' /\ b = b'.
Proof. unfold candidate. intros [= -> ->]. auto. Qed.

(** X16: for a cell size other than 0, [generateGrid] returns without
    throwing, keeps the size and the orientation, centres the grid in the
    window, and fills the map with exactly the candidates (q, r, -q-r) of the
    swept range whose pixel centre passes the test, each stored under its own
    identifier; so every stored hex is zero-sum. *)
Theorem generateGrid_exact (width height : R) (grid : HexGrid) :
  hexSize grid <> 0 ->
  exists grid' : HexGrid,
    generateGrid width height grid = Ok grid' /\
    hexSize grid' = hexSize grid /\
    hexOrientation grid' = hexOrientation grid /\
    gridCenter grid' = mkPoint (width / 2) (height / 2) /\
    (forall (k : string) (h : Hex),
        hexes grid' !! k = Some h <->
        k = id h /\
        exists a b : Z,
          (- (sweep_bounds (hexSize grid) (hexOrientation grid) width height).1 <= a
           <= (sweep_bounds (hexSize grid) (hexOrientation grid) width height).1)%Z /\
          (- (sweep_bounds (hexSize grid) (hexOrientation grid) width height).2 <= b
           <= (sweep_bounds (hexSize grid) (hexOrientation grid) width height).2)%Z /\
          h = candidate a b /\
          within_bounds
            (toPixel h (hexOrientation grid) (hexSize grid) (gridCenter grid'))
            (hexSize grid) width height) /\
    (forall (k : string) (h : Hex),
        hexes grid' !! k = Some h -> (q h + r h + s h)%Z = 0%Z).
Proof.
  intros Hsize.
  destruct (generateGrid_spec width height grid Hsize)
    as (grid' & E & Hs & Ho & Hc & Hk & L).
  exists grid'. split; [exact E |]. split; [exact Hs |]. split; [exact Ho |].
  split; [exact Hc |]. rewrite Hc.
  destruct (sweep_bounds (hexSize grid) (hexOrientation grid) width height)
    as [qMax rMax]. cbn [fst snd].
  assert (Hiff : forall (k : string) (h : Hex),
             hexes grid' !! k = Some h <->
             k = id h /\
             exists a b : Z,
               (- qMax <= a <= qMax)%Z /\ (- rMax <= b <= rMax)%Z /\
               h = candidate a b /\
               within_bounds
                 (toPixel h (hexOrientation grid) (hexSize grid)
                    (mkPoint (width / 2) (height / 2)))
                 (hexSize grid) width height).
  { intros k h. split.
    - intros Hl. pose proof (Hk _ _ Hl) as ->. split; [reflexivity |].
      now apply L.
    - intros [-> Hex]. now apply L. }
  split; [exact Hiff |].
  intros k h Hl. apply Hiff in Hl as (_ & a & b & _ & _ & -> & _).
  unfold candidate. cbn [q r s]. lia.
Qed.

Lemma generateGrid_exact_witness :
  exists grid' : HexGrid,
    generateGrid 800 600 (HexGrid_constructor HEX_SIZE HEX_ORIENTATION) = Ok grid' /\
    gridCenter grid' = mkPoint (800 / 2) (600 / 2).
Proof.
  destruct (generateGrid_exact 800 600 (HexGrid_constructor HEX_SIZE HEX_ORIENTATION))
    as (grid' & E & _ & _ & Hc & _).
  - cbn [HexGrid_constructor hexSize]. unfold HEX_SIZE. lra.
  - exists grid'. auto.
Defined.

Lemma Math_ceil_nonneg (t : R) : 0 <= t -> (0 <= Math_ceil t)%Z.
Proof.
  intros Ht. unfold Math_ceil.
  destruct (base_Int_part (- t)) as [Hle _].
  assert (Hz : (Int_part (- t) <= 0)%Z) by (apply le_IZR; lra). lia.
Qed.

Lemma sweep_bounds_positive (size : R) (o : Orientation) (width height : R) :
  0 < size -> 0 <= width -> 0 <= height ->
  (1 <= (sweep_bounds size o width height).1)%Z /\
  (1 <= (sweep_bounds size o width height).2)%Z.
Proof.
  intros Hs HW HH. pose proof SQRT3_bounds as HS.
  assert (H3 : 0 < size * SQRT3) by (apply Rmult_lt_0_compat; lra).
  unfold sweep_bounds. change (sqrt 3) with SQRT3.
  destruct o; cbn [fst snd]; cbv zeta; split;
    match goal with
    | |- (1 <= Math_ceil ?t + 1)%Z =>
        assert (0 <= Math_ceil t)%Z
          by (apply Math_ceil_nonneg, div_lower; lra); lia
    end.
Qed.

(** X17: for a positive cell size and a window of non-negative width and
    height, the grid [generateGrid] builds holds the hex (0, 0, 0), whose
    centre is the centre of the window: the grid is never empty. *)
Theorem generateGrid_has_center (width height : R) (grid : HexGrid) :
  0 < hexSize grid -> 0 <= width -> 0 <= height ->
  exists grid' : HexGrid,
    generateGrid width height grid = Ok grid' /\
    hexes grid' !! "0,0,0" = Some (mkHex 0 0 0) /\
    toPixel (mkHex 0 0 0) (hexOrientation grid) (hexSize grid) (gridCenter grid')
    = mkPoint (width / 2) (height / 2).
Proof.
  intros Hs HW HH.
  assert (Hsize : hexSize grid <> 0) by lra.
  destruct (generateGrid_spec width height grid Hsize)
    as (grid' & E & _ & _ & Hc & _ & L).
  destruct (sweep_bounds_positive (hexSize grid) (hexOrientation grid) width height
              Hs HW HH) as [Hq Hr].
  exists grid'. split; [exact E |].
  assert (Hpix : toPixel (mkHex 0 0 0) (hexOrientation grid) (hexSize grid)
                   (mkPoint (width / 2) (height / 2))
                 = mkPoint (width / 2) (height / 2)).
  { unfold toPixel. cbn [q r x y]. destruct (hexOrientation grid); f_equal; lra. }
  split; [| rewrite Hc; exact Hpix].
  change "0,0,0" with (id (mkHex 0 0 0)). apply L. exists 0%Z, 0%Z.
  destruct (sweep_bounds (hexSize grid) (hexOrientation grid) width height)
    as [qMax rMax]. cbn [fst snd] in Hq, Hr.
  split; [lia |]. split; [lia |]. split; [reflexivity |].
  rewrite Hpix. unfold within_bounds. cbn [x y]. lra.
Qed.

Lemma generateGrid_has_center_witness :
  exists grid' : HexGrid,
    generateGrid 0 0 (HexGrid_constructor 50 pointy_top) = Ok grid' /\
    hexes grid' !! "0,0,0" = Some (mkHex 0 0 0).
Proof.
  destruct (generateGrid_has_center 0 0 (HexGrid_constructor 50 pointy_top))
    as (grid' & E & Hl & _); cbn [HexGrid_constructor hexSize]; try lra.
  exists grid'. auto.
Defined.

(** X18: a candidate outside the swept range of q and r is not in the grid,
    wherever its pixel centre lies.  In a window of 1920 by 400 with flat-top
    cells of size 50 the hex (12, -8, -4), whose centre (1860, 26.8) is inside
    the window, is left out in this way. *)
Theorem generateGrid_outside_sweep (width height : R) (grid : HexGrid) (a b : Z) :
  hexSize grid <> 0 ->
  ~ ((- (sweep_bounds (hexSize grid) (hexOrientation grid) width height).1 <= a
      <= (sweep_bounds (hexSize grid) (hexOrientation grid) width height).1)%Z /\
     (- (sweep_bounds (hexSize grid) (hexOrientation grid) width height).2 <= b
      <= (sweep_bounds (hexSize grid) (hexOrientation grid) width height).2)%Z) ->
  exists grid' : HexGrid,
    generateGrid width height grid = Ok grid' /\
    hexes grid' !! id (candidate a b) = None.
Proof.
  intros Hsize Hout.
  destruct (generateGrid_spec width height grid Hsize)
    as (grid' & E & _ & _ & _ & Hk & L).
  exists grid'. split; [exact E |].
  destruct (hexes grid' !! id (candidate a b)) as [h|] eqn:Hl; [exfalso | reflexivity].
  pose proof (Hk _ _ Hl) as Hid. apply id_inj in Hid. subst h.
  apply L in Hl as (a' & b' & Hw).
  destruct (sweep_bounds (hexSize grid) (hexOrientation grid) width height)
    as [qMax rMax]. cbn [fst snd] in Hout.
  destruct Hw as (Ha & Hb & Hc & _).
  apply candidate_inj in Hc as [-> ->]. tauto.
Qed.

Lemma wide_sweep_bounds : sweep_bounds 50 flat_top 1920 400 = (27%Z, 6%Z).
Proof.
  pose proof SQRT3_bounds as HS. unfold sweep_bounds. cbv zeta.
  change (sqrt 3) with SQRT3.
  rewrite (Math_ceil_spec (1920 / (50 * 1.5)) 26) by lra.
  rewrite (Math_ceil_spec (400 / (50 * SQRT3)) 5); [reflexivity |].
  split.
  - apply div_lower_strict; lra.
  - apply div_upper; lra.
Qed.

Lemma generateGrid_outside_sweep_witness :
  exists grid' : HexGrid,
    generateGrid 1920 400 wide_grid = Ok grid' /\
    hexes grid' !! "12,-8,-4" = None /\
    0 < x (toPixel (mkHex 12 (- 8) (- 4)) flat_top 50 (mkPoint (1920 / 2) (400 / 2))) < 1920 /\
    0 < y (toPixel (mkHex 12 (- 8) (- 4)) flat_top 50 (mkPoint (1920 / 2) (400 / 2))) < 400.
Proof.
  pose proof SQRT3_bounds as HS.
  destruct (generateGrid_outside_sweep 1920 400 wide_grid 12 (- 8))
    as (grid' & E & Hl).
  - unfold wide_grid. cbn [HexGrid_constructor hexSize]. lra.
  - unfold wide_grid. cbn [HexGrid_constructor hexSize hexOrientation].
    rewrite wide_sweep_bounds. cbn [fst snd]. lia.
  - exists grid'. split; [exact E |]. split; [exact Hl |].
    unfold toPixel. cbn [q r x y]. change (sqrt 3) with SQRT3. lra.
Defined.

End GridFacts.

(** ** More on the strict variant: identifiers and the renderer *)

Module RendererFacts.

Import Script ScriptNotions ScriptFacts.

(** X19: the identifier of a hex is its three coordinates in decimal,
    separated by commas: it is never empty, and two hexes have the same
    identifier only when they are the same hex, so that the map of the grid
    never stores two hexes under one key. *)
Theorem id_faithful :
  (forall h h' : Hex, id h = id h' <-> h = h') /\
  (forall h : Hex, id h <> "") /\
  (forall a b c a' b' c' : Z,
      Hex_id a b c = Hex_id a' b' c' <-> a = a' /\ b = b' /\ c = c') /\
  id (mkHex 12 (- 8) (- 4)) = "12,-8,-4".
Proof.
  split; [| split; [| split]].
  - intros h h'. split; [apply id_inj | now intros ->].
  - apply id_nonempty.
  - intros a b c a' b' c'. split; [apply Hex_id_inj |].
    now intros (-> & -> & ->).
  - reflexivity.
Qed.

Lemma drawGrid_cases (this : GameRenderer) :
  selection_named this ->
  (selectedHexId this = None /\
   drawGrid this = {| hexGrid := hexGrid this; highlightGraphic := None;
                      selectedHexId := None |}) \/
  exists C : Hex,
    selectedHexId this = Some (id C) /\
    match hexes (hexGrid this) !! id C with
    | Some sel => drawGrid this = {| hexGrid := hexGrid this;
                                     highlightGraphic := Some sel;
                                     selectedHexId := Some (id sel) |}
    | None => drawGrid this = {| hexGrid := hexGrid this; highlightGraphic := None;
                                 selectedHexId := None |}
    end.
Proof.
  intros [Hnone | [C HC]]; unfold drawGrid; cbn [selectedHexId hexGrid].
  - left. rewrite Hnone. auto.
  - right. exists C. split; [exact HC |]. rewrite HC, truthy_id.
    destruct (hexes (hexGrid this) !! id C); reflexivity.
Qed.

Lemma drawGrid_again (this : GameRenderer) :
  keyed (hexes (hexGrid this)) -> selection_named this ->
  drawGrid (drawGrid this) = drawGrid this.
Proof.
  intros Hk Hsel.
  destruct (drawGrid_cases this Hsel) as [[_ ->] | (C & _ & Hcase)].
  - reflexivity.
  - destruct (hexes (hexGrid this) !! id C) as [sel|] eqn:Hl; rewrite Hcase.
    + pose proof (Hk _ _ Hl) as Hid. apply id_inj in Hid. subst sel.
      unfold drawGrid. cbn [selectedHexId hexGrid]. rewrite truthy_id, Hl.
      reflexivity.
    + reflexivity.
Qed.

Lemma drawGrid_matches (this : GameRenderer) :
  selection_named this -> highlight_matches (drawGrid this).
Proof.
  intros Hsel. unfold highlight_matches.
  destruct (drawGrid_cases this Hsel) as [[_ ->] | (C & _ & Hcase)]; [left; auto |].
  destruct (hexes (hexGrid this) !! id C) as [sel|]; rewrite Hcase;
    cbn [highlightGraphic selectedHexId]; [right; eauto | left; auto].
Qed.

(** X20: on a grid whose keys name their hexes, and with a selection that
    is the identifier of a hex or none, drawing the grid twice gives the same
    renderer state as drawing it once; drawing leaves the grid as it is and
    ends with the highlight of the selected hex, or with none. *)
Theorem drawGrid_idempotent (this : GameRenderer) :
  keyed (hexes (hexGrid this)) -> selection_named this ->
  drawGrid (drawGrid this) = drawGrid this /\
  hexGrid (drawGrid this) = hexGrid this /\
  highlight_matches (drawGrid this).
Proof.
  intros Hk Hsel. split; [| split].
  - now apply drawGrid_again.
  - apply drawGrid_hexGrid.
  - now apply drawGrid_matches.
Qed.

Lemma drawGrid_idempotent_witness :
  drawGrid (drawGrid {| hexGrid := HexGrid_constructor 50 flat_top;
                        highlightGraphic := None;
                        selectedHexId := Some (id (mkHex 1 0 (- 1))) |})
  = drawGrid {| hexGrid := HexGrid_constructor 50 flat_top;
                highlightGraphic := None;
                selectedHexId := Some (id (mkHex 1 0 (- 1))) |}.
Proof.
  apply (drawGrid_idempotent
           {| hexGrid := HexGrid_constructor 50 flat_top; highlightGraphic := None;
              selectedHexId := Some (id (mkHex 1 0 (- 1))) |}).
  - exact keyed_empty.
  - right. exists (mkHex 1 0 (- 1)). reflexivity.
Defined.

Lemma resize_unfold (innerWidth innerHeight : R) (this : GameRenderer) :
  hexSize (hexGrid this) <> 0%R ->
  exists grid' : HexGrid,
    generateGrid innerWidth innerHeight (hexGrid this) = Ok grid' /\
    keyed (hexes grid') /\
    hexSize grid' = hexSize (hexGrid this) /\
    hexOrientation grid' = hexOrientation (hexGrid this) /\
    resize innerWidth innerHeight this
    = Ok (drawGrid {| hexGrid := grid'; highlightGraphic := highlightGraphic this;
                      selectedHexId := selectedHexId this |}).
Proof.
  intros Hsize.
  destruct (generateGrid_spec innerWidth innerHeight (hexGrid this) Hsize)
    as (grid' & E & Hs & Ho & _ & Hk & _).
  exists grid'. split; [exact E |]. split; [exact Hk |].
  split; [exact Hs |]. split; [exact Ho |].
  unfold resize. rewrite E. reflexivity.
Qed.

Lemma reachable_size_nonzero (this : GameRenderer) :
  reachable this -> hexSize (hexGrid this) <> 0%R.
Proof.
  intros Hreach. destruct (reachable_invariant this Hreach) as [_ ->].
  exact HEX_SIZE_nonzero.
Qed.

(** X21: in every state the page reaches, a resize keeps a selection whose
    hex is still in the regenerated grid, and draws its highlight again. *)
Theorem resize_keeps_member_selection (innerWidth innerHeight : R)
    (this this' : GameRenderer) (C : Hex) :
  reachable this ->
  selectedHexId this = Some (id C) ->
  resize innerWidth innerHeight this = Ok this' ->
  hexes (hexGrid this') !! id C = Some C ->
  selectedHexId this' = Some (id C) /\ highlightGraphic this' = Some C.
Proof.
  intros Hreach Hsel Hres Hl.
  destruct (resize_unfold innerWidth innerHeight this (reachable_size_nonzero _ Hreach))
    as (grid' & _ & _ & _ & _ & E).
  rewrite E in Hres. injection Hres as <-.
  rewrite drawGrid_hexGrid in Hl. cbn [hexGrid] in Hl.
  unfold drawGrid. cbn [selectedHexId hexGrid].
  rewrite Hsel, truthy_id, Hl. cbn [drawHighlight selectedHexId highlightGraphic].
  auto.
Qed.

Lemma window_selected_config :
  hexSize (hexGrid window_selected) = 50%R /\
  hexOrientation (hexGrid window_selected) = flat_top.
Proof.
  unfold window_selected, window_grid. cbn [onHexClick drawHighlight hexGrid].
  destruct (generateGrid_spec 800 600 (HexGrid_constructor HEX_SIZE HEX_ORIENTATION)
              HEX_SIZE_nonzero) as (g0 & -> & Hs & Ho & _).
  unfold GameRenderer_constructor. rewrite drawGrid_hexGrid. cbn [hexGrid].
  rewrite Hs, Ho. auto.
Qed.

Lemma resize_keeps_member_selection_witness :
  exists this' : GameRenderer,
    resize 800 600 window_selected = Ok this' /\
    selectedHexId this' = Some "6,-3,-3" /\
    highlightGraphic this' = Some (mkHex 6 (- 3) (- 3)).
Proof.
  pose proof SQRT3_bounds as HS.
  destruct window_selected_reachable as [Hreach Hsel].
  destruct window_selected_config as [Hs Ho].
  assert (Hsize : hexSize (hexGrid window_selected) <> 0%R) by (rewrite Hs; lra).
  destruct (resize_unfold 800 600 window_selected Hsize) as (grid' & Eg & _ & _ & _ & E).
  exists (drawGrid {| hexGrid := grid';
                      highlightGraphic := highlightGraphic window_selected;
                      selectedHexId := selectedHexId window_selected |}).
  split; [exact E |].
  apply (resize_keeps_member_selection 800 600 window_selected _ (mkHex 6 (- 3) (- 3))
           Hreach Hsel E).
  rewrite drawGrid_hexGrid. cbn [hexGrid].
  destruct (generateGrid_spec 800 600 (hexGrid window_selected) Hsize)
    as (g & Eg' & _ & _ & _ & _ & L).
  rewrite Eg in Eg'. injection Eg' as <-.
  apply L. exists 6%Z, (- 3)%Z. rewrite Hs, Ho, window_sweep_bounds.
  split; [lia |]. split; [lia |]. split; [reflexivity |].
  unfold within_bounds, toPixel. cbn [q r x y]. change (sqrt 3) with SQRT3.
  lra.
Defined.

Lemma generateGrid_config (width height : R) (g1 g2 : HexGrid) :
  hexSize g1 = hexSize g2 -> hexOrientation g1 = hexOrientation g2 ->
  generateGrid width height g1 = generateGrid width height g2.
Proof. unfold generateGrid. intros -> ->. reflexivity. Qed.

(** X22: in every state the page reaches, a second resize to the same
    window size changes nothing: it returns the state the first one
    returned. *)
Theorem resize_idempotent (innerWidth innerHeight : R) (this this' : GameRenderer) :
  reachable this ->
  resize innerWidth innerHeight this = Ok this' ->
  resize innerWidth innerHeight this' = Ok this'.
Proof.
  intros Hreach Hres.
  destruct (reachable_invariant this Hreach) as [Hnamed _].
  destruct (resize_unfold innerWidth innerHeight this (reachable_size_nonzero _ Hreach))
    as (grid' & Eg & Hk & Hs & Ho & E).
  rewrite E in Hres. injection Hres as <-.
  set (this0 := {| hexGrid := grid'; highlightGraphic := highlightGraphic this;
                   selectedHexId := selectedHexId this |}).
  assert (Hgrid : hexGrid (drawGrid this0) = grid') by apply drawGrid_hexGrid.
  unfold resize. rewrite Hgrid.
  rewrite (generateGrid_config innerWidth innerHeight grid' (hexGrid this) Hs Ho), Eg.
  cbn [mbind result_bind]. f_equal.
  transitivity (drawGrid (drawGrid this0)).
  - f_equal. rewrite <- Hgrid at 1. destruct (drawGrid this0). reflexivity.
  - apply drawGrid_again; [exact Hk | exact Hnamed].
Qed.

Lemma resize_idempotent_witness :
  exists this' : GameRenderer,
    resize 400 300 window_selected = Ok this' /\ resize 400 300 this' = Ok this'.
Proof.
  destruct window_selected_reachable as [Hreach _].
  destruct (resize_unfold 400 300 window_selected (reachable_size_nonzero _ Hreach))
    as (grid' & _ & _ & _ & _ & E).
  eexists. split; [exact E |].
  exact (resize_idempotent 400 300 window_selected _ Hreach E).
Defined.

(** X23: in every state the page reaches, the highlight drawn and the
    selected identifier go together: there is no highlight and no selection,
    or the highlight is that of the hex whose identifier is selected. *)
Theorem reachable_highlight_matches (this : GameRenderer) :
  reachable this -> highlight_matches this.
Proof.
  induction 1 as [W H grid E | hex this Hr IH | W H this this' Hr IH E].
  - apply drawGrid_matches. left. reflexivity.
  - destruct hex as [hex|]; [| exact IH].
    right. exists hex. split; reflexivity.
  - destruct (resize_unfold W H this (reachable_size_nonzero _ Hr))
      as (grid' & _ & _ & _ & _ & E').
    rewrite E' in E. injection E as <-.
    apply drawGrid_matches. exact (proj1 (reachable_invariant this Hr)).
Qed.

Lemma reachable_highlight_matches_witness :
  highlight_matches window_selected.
Proof.
  exact (reachable_highlight_matches window_selected (proj1 window_selected_reachable)).
Defined.

End RendererFacts.

(** ** More on the pointy-top variant: the window and the centre click *)

Module WindowFacts.

Import Radial RoundingRules RadialNotions RadialFacts ClickFacts.
Local Open Scope R_scope.

Lemma fitted_size_zero (W H : R) :
  0 <= W -> 0 <= H -> W = 0 \/ H = 0 -> fitted_size W H = 0.
Proof.
  intros HW HH Hz. pose proof SQRT3_bounds as HS. unfold fitted_size.
  assert (H1 : 0 <= W / 11 / SQRT3) by (apply div_lower; lra).
  assert (H2 : 0 <= H / 11 / 2) by lra.
  destruct Hz as [-> | ->].
  - replace (0 / 11 / SQRT3) with 0 by (field; lra).
    rewrite Rmin_left by exact H2. lra.
  - replace (0 / 11 / 2) with 0 by lra.
    rewrite Rmin_right by exact H1. lra.
Qed.

(** X24: when the window has width 0 or height 0, the rebuilt grid is
    empty and [currentMaxRadius] is not a number; in every state the page
    reaches, a click after such a rebuild leaves nothing selected. *)
Theorem updateGridDisplay_empty_window (W H : R) (st : State) (clickPoint : Point) :
  reachable st -> 0 <= W -> 0 <= H -> W = 0 \/ H = 0 ->
  gameHexes (updateGridDisplay W H st) = [] /\
  currentMaxRadius (updateGridDisplay W H st) = None /\
  selectedHex (onHexClick clickPoint (updateGridDisplay W H st)) = None.
Proof.
  intros Hreach HW HH Hz.
  pose proof (fitted_size_zero W H HW HH Hz) as Hsize.
  destruct (updateGridDisplay_degenerate W H st Hsize) as [Hgrid _].
  split; [exact Hgrid |]. split.
  - unfold updateGridDisplay, targetMaxRadius. cbn [currentMaxRadius].
    destruct (decide (5 > 0)) as [_ | Hn]; [| exfalso; lra].
    replace (2 * 5 + 1) with 11 by lra. fold (fitted_size W H). rewrite Hsize.
    destruct (decide (0 = 0)) as [_ | Hn]; [reflexivity | contradiction].
  - pose proof (reachable_paired _ (reachable_resize W H st Hreach)) as Hp.
    unfold selection_paired in Hp.
    assert (Hnone : find_hex (clicked_hex clickPoint (updateGridDisplay W H st))
                      (gameHexes (updateGridDisplay W H st)) = None)
      by (rewrite Hgrid; reflexivity).
    destruct (onHexClick_not_found _ _ Hnone) as (_ & -> & _).
    destruct (selectedHexGraphics (updateGridDisplay W H st)); [reflexivity | tauto].
Qed.

Lemma updateGridDisplay_empty_window_witness :
  gameHexes (updateGridDisplay 0 600 session_selected) = [] /\
  selectedHex (onHexClick (mkPoint 0 300) (updateGridDisplay 0 600 session_selected))
  = None.
Proof.
  destruct (updateGridDisplay_empty_window 0 600 session_selected (mkPoint 0 300)
              (proj1 session_selected_facts)) as (Hg & _ & Hs); try lra; auto.
Defined.

(** X25: in every state the page reaches, after a rebuild for a window of
    positive width and height, a click at the centre of the window selects
    the hex (0, 0, 0). *)
Theorem centre_click_selects_origin (W H : R) (st : State) :
  reachable st -> 0 < W -> 0 < H ->
  clicked_hex (mkPoint (W / 2) (H / 2)) (updateGridDisplay W H st) = mkHex 0 0 0 /\
  exists n : nat,
    selectedHex (onHexClick (mkPoint (W / 2) (H / 2)) (updateGridDisplay W H st))
    = Some (n, mkHex 0 0 0).
Proof.
  intros Hreach HW HH.
  destruct (updateGridDisplay_size W H st) as (Hsize & Hcenter & _).
  destruct (updateGridDisplay_radius W H st HW HH) as [_ Hgrid].
  pose proof (fitted_size_pos W H HW HH) as Hpos.
  assert (Hclick : clicked_hex (mkPoint (W / 2) (H / 2)) (updateGridDisplay W H st)
                   = mkHex 0 0 0).
  { unfold clicked_hex. rewrite Hsize, Hcenter, pixel_to_hex_current.
    cbn [x y]. cbv zeta.
    replace (W / 2 - W / 2) with 0 by lra. replace (H / 2 - H / 2) with 0 by lra.
    replace (0 / fitted_size W H) with 0 by (field; lra).
    rewrite (hex_round_third_branch _ 0 0 0); cbn [q r s]; try (split_abs; lra).
    f_equal. lra. }
  split; [exact Hclick |].
  assert (Hin : mkHex 0 0 0 ∈ (gameHexes (updateGridDisplay W H st)).*2).
  { rewrite Hgrid. apply DiskFacts.grid_loop_elem_of.
    exists 0%Z, 0%Z, 0%Z. split; [reflexivity | lia]. }
  destruct (find_hex_elem_of _ _ Hin) as (n & Hfind & Hmem).
  exists n. rewrite <- Hclick in Hfind at 1.
  apply (onHexClick_found _ _ _ Hfind).
  exact (updateGridDisplay_graphics W H st (n, mkHex 0 0 0) Hmem).
Qed.

Lemma centre_click_selects_origin_witness :
  exists n : nat,
    selectedHex (onHexClick (mkPoint (1920 / 2) (1080 / 2))
                   (updateGridDisplay 1920 1080 session_selected))
    = Some (n, mkHex 0 0 0).
Proof.
  apply (centre_click_selects_origin 1920 1080 session_selected
           (proj1 session_selected_facts)); lra.
Defined.

End WindowFacts.
